(** * Perturbed clustering solvers (jaxclust/_src/perturbations.py)

    A shallow embedding of [Normal], [make_pert_solver] and
    [make_pert_csolver], and the properties of the wrappers they build.

    Arrays are a shape and row-major data.  Scalar arithmetic is an
    interface ([Scalar]): the wrappers are modelled once for every
    interpretation of the arithmetic operations, and no algebraic law is
    used unless a statement says so ([ExactArith]).  Reductions ([jnp.sum],
    [jnp.mean], [jnp.einsum]) add the terms in index order, starting from
    zero.

    The wrapped solver and the noise model are arbitrary callables: they
    may read and change an ambient state of type [W], and they may raise.
    [jax.vmap] of a callable over the leading axis is modelled as the
    callable applied to each slice in turn, the results stacked.  The
    program calls the solver once, on a batched tracer; the two agree for
    a solver that is a function of its input, which is what every
    statement about the solver's outputs assumes.  A solver that raises or
    branches on the values of one sample is not described by this model,
    and a solver that changes the state does so once in the program. *)

From Stdlib Require Import List ZArith QArith Qreduction Lia Bool Arith.
From Stdlib Require Import Reals Lra Qreals.
Import ListNotations.

Set Implicit Arguments.
Local Close Scope Q_scope.
Local Close Scope R_scope.
Local Open Scope nat_scope.

(** * Part I: the model *)

(** ** Lists *)

Section ListOps.
Context {A : Type}.

Fixpoint zip_with (f : A -> A -> A) (u v : list A) : list A :=
  match u, v with
  | x :: u', y :: v' => f x y :: zip_with f u' v'
  | _, _ => []
  end.

(** [chunks k n l]: the first [n] consecutive blocks of [k] elements. *)
Fixpoint chunks (k n : nat) (l : list A) : list (list A) :=
  match n with
  | O => []
  | S n' => firstn k l :: chunks k n' (skipn k l)
  end.

End ListOps.

(** ** Scalar arithmetic

    The operations the wrappers use on array elements and on the Python
    numbers [sigma] and [num_samples]. *)

Class Scalar (T : Type) : Type := {
  s0 : T;                       (* 0.0 *)
  s1 : T;                       (* 1.0 *)
  sadd : T -> T -> T;
  smul : T -> T -> T;
  sdiv : T -> T -> T;
  sneg : T -> T;
  spow : T -> nat -> T;         (* x ** n, n a literal *)
  s_of_Z : Z -> T;              (* an int where a float is expected *)
  s_lit : Q -> T;               (* a decimal literal *)
  s_is_zero : T -> bool         (* x == 0 *)
}.

(** The laws of exact arithmetic that regrouping a contraction needs.
    Floating-point arithmetic does not satisfy them. *)
Class ExactArith (T : Type) `{Scalar T} : Prop := {
  smul_assoc : forall a b c : T, smul (smul a b) c = smul a (smul b c);
  smul_add_distr_l :
    forall a b c : T, smul a (sadd b c) = sadd (smul a b) (smul a c);
  smul_0_r : forall a : T, smul a s0 = s0
}.
Arguments ExactArith T {_}.

(** ** Results and effects *)

Inductive exn : Type :=
| EvalError              (* raised by Python or JAX inside the wrapper body *)
| Foreign (tag : nat).   (* raised by the wrapped solver or the noise model *)

Inductive result (A : Type) : Type :=
| Ok (a : A)
| Raise (e : exn).
Arguments Ok {A} a.
Arguments Raise {A} e.

(** A computation reads the ambient state, returns a value or raises, and
    leaves a new state. *)
Definition M (W A : Type) : Type := W -> result A * W.

Definition ret {W A} (a : A) : M W A := fun w => (Ok a, w).

Definition bind {W A B} (c : M W A) (k : A -> M W B) : M W B :=
  fun w => match c w with
           | (Ok a, w') => k a w'
           | (Raise e, w') => (Raise e, w')
           end.

(** A step of the wrapper body itself: it does not touch the state. *)
Definition lift {W A} (r : result A) : M W A := fun w => (r, w).

Declare Scope eff_scope.
Delimit Scope eff_scope with eff.
Notation "x <- c ;; k" := (bind c (fun x => k))
  (at level 61, c at next level, right associativity) : eff_scope.
Notation "' pat <- c ;; k" := (bind c (fun x => match x with pat => k end))
  (at level 61, pat pattern, c at next level, right associativity) : eff_scope.
Local Open Scope eff_scope.

Fixpoint mapM {W A B} (f : A -> M W B) (l : list A) : M W (list B) :=
  match l with
  | [] => ret []
  | x :: l' => y <- f x ;; ys <- mapM f l' ;; ret (y :: ys)
  end.

(** ** Arrays *)

Section Arrays.
Context {T : Type} `{Scalar T}.

Record array : Type := mk_array { shape : list nat; data : list T }.

Definition numel (sh : list nat) : nat := fold_right Nat.mul 1 sh.

(** Every array of the program has as many elements as its shape says. *)
Definition wf (a : array) : Prop := length (data a) = numel (shape a).

Fixpoint shape_eqb (a b : list nat) : bool :=
  match a, b with
  | [], [] => true
  | x :: a', y :: b' => (x =? y) && shape_eqb a' b'
  | _, _ => false
  end.

Definition sum (l : list T) : T := fold_left sadd l s0.

Definition dot (u v : list T) : T := sum (zip_with smul u v).

(** Sum of rows of length [k], element by element. *)
Definition sum_rows (k : nat) (rows : list (list T)) : list T :=
  fold_left (zip_with sadd) rows (repeat s0 k).

Definition map_array (f : T -> T) (a : array) : array :=
  mk_array (shape a) (map f (data a)).

(** [c * a] for a Python number [c]. *)
Definition scale (c : T) (a : array) : array := map_array (smul c) a.

(** [a ** n] *)
Definition power (a : array) (n : nat) : array :=
  map_array (fun x => spow x n) a.

(** [-a] *)
Definition neg (a : array) : array := map_array sneg a.

(** NumPy broadcasting of two shapes, on the shapes read from the last
    axis: equal sizes agree, a size 1 stretches, a missing axis is added. *)
Fixpoint bshape_rev (a b : list nat) : option (list nat) :=
  match a, b with
  | [], _ => Some b
  | _, [] => Some a
  | x :: a', y :: b' =>
      match bshape_rev a' b' with
      | None => None
      | Some r =>
          if x =? y then Some (x :: r)
          else if x =? 1 then Some (y :: r)
          else if y =? 1 then Some (x :: r)
          else None
      end
  end.

Definition broadcast_shapes (a b : list nat) : option (list nat) :=
  option_map (@rev nat) (bshape_rev (rev a) (rev b)).

Definition pad_shape (sh : list nat) (rank : nat) : list nat :=
  repeat 1 (rank - length sh) ++ sh.

(** Data of an array of shape [src] stretched to shape [tgt] of the same
    rank: an axis of equal size is kept, an axis of size 1 is repeated. *)
Fixpoint expand (src tgt : list nat) (d : list T) : list T :=
  match src, tgt with
  | s :: src', e :: tgt' =>
      if s =? e
      then concat (map (expand src' tgt') (chunks (numel src') s d))
      else concat (repeat (expand src' tgt' d) e)
  | _, _ => d
  end.

Definition broadcast_to (a : array) (tgt : list nat) : list T :=
  expand (pad_shape (shape a) (length tgt)) tgt (data a).

(** [a + b], [a * b] on arrays. *)
Definition binop (f : T -> T -> T) (a b : array) : result array :=
  match broadcast_shapes (shape a) (shape b) with
  | Some sh =>
      Ok (mk_array sh (zip_with f (broadcast_to a sh) (broadcast_to b sh)))
  | None => Raise EvalError
  end.

Definition add : array -> array -> result array := binop sadd.
Definition mul : array -> array -> result array := binop smul.

(** [a.reshape([-1])], [jnp.reshape(a, (-1,))] *)
Definition flatten (a : array) : array :=
  mk_array [numel (shape a)] (data a).

(** [jnp.reshape(a, sh)] for a shape without [-1]. *)
Definition reshape (a : array) (sh : list nat) : result array :=
  if numel sh =? numel (shape a) then Ok (mk_array sh (data a))
  else Raise EvalError.

(** [jnp.reshape(a, (n, -1))]: the second size is inferred, which needs
    a positive [n] that divides the number of elements. *)
Definition reshape_rows (n : Z) (a : array) : result array :=
  if (n <=? 0)%Z then Raise EvalError
  else if numel (shape a) mod Z.to_nat n =? 0
       then Ok (mk_array [Z.to_nat n; numel (shape a) / Z.to_nat n] (data a))
       else Raise EvalError.

(** [jnp.mean(a, axis=0)] *)
Definition mean0 (a : array) : result array :=
  match shape a with
  | [] => Raise EvalError
  | d :: ds =>
      Ok (mk_array ds
            (map (fun x => sdiv x (s_of_Z (Z.of_nat d)))
                 (sum_rows (numel ds) (chunks (numel ds) d (data a)))))
  end.

(** [jnp.mean(a)] *)
Definition mean_all (a : array) : array :=
  mk_array [] [sdiv (sum (data a)) (s_of_Z (Z.of_nat (numel (shape a))))].

(** [jnp.sum(a)] *)
Definition total (a : array) : array := mk_array [] [sum (data a)].

(** [jnp.zeros_like(a)] *)
Definition zeros_like (a : array) : array :=
  mk_array (shape a) (repeat s0 (numel (shape a))).

(** [jnp.einsum('nd,nd->n', a, b)]: entry [i] is the sum over [d] of
    [a[i,d] * b[i,d]]; the two operands have one shape. *)
Definition einsum_nd_nd_n (a b : array) : result array :=
  match shape a, shape b with
  | [n; d], [n'; d'] =>
      if (n =? n') && (d =? d')
      then Ok (mk_array [n]
                 (map (fun p => dot (fst p) (snd p))
                      (combine (chunks d n (data a)) (chunks d n (data b)))))
      else Raise EvalError
  | _, _ => Raise EvalError
  end.

(** [jnp.einsum('nd,ne,e->d', a, g, t)]: entry [j] is the sum over [n] and
    [e] of [a[n,j] * g[n,e] * t[e]]. *)
Definition einsum_nd_ne_e_d (a g t : array) : result array :=
  match shape a, shape g, shape t with
  | [n; d], [n'; e], [e'] =>
      if (n =? n') && (e =? e')
      then Ok (mk_array [d]
                 (map (fun j =>
                         sum (map (fun p =>
                                     sum (zip_with smul
                                            (map (smul (nth j (fst p) s0))
                                                 (snd p))
                                            (data t)))
                                  (combine (chunks d n (data a))
                                           (chunks e n (data g)))))
                      (seq 0 d)))
      else Raise EvalError
  | _, _, _ => Raise EvalError
  end.

(** The slices of an array along its leading axis. *)
Definition slices (a : array) : result (list array) :=
  match shape a with
  | [] => Raise EvalError
  | d :: ds => Ok (map (mk_array ds) (chunks (numel ds) d (data a)))
  end.

(** Arrays of one shape stacked along a new leading axis.  The slices of
    an empty batch do not say what shape a batched call returns: the model
    raises there. *)
Definition stack (l : list array) : result array :=
  match l with
  | [] => Raise EvalError
  | a :: _ =>
      if forallb (fun b => shape_eqb (shape b) (shape a)) l
      then Ok (mk_array (length l :: shape a) (concat (map data l)))
      else Raise EvalError
  end.

(** [jax.vmap(f, in_axes=(0, None, ...))(X, ...)] for [f] returning a pair;
    the unmapped arguments are already applied to [f].  The result is
    that of the program for an [f] that is a function of its input. *)
Definition vmap2 {W} (f : array -> M W (array * array)) (X : array)
  : M W (array * array) :=
  xs <- lift (slices X) ;;
  outs <- mapM f xs ;;
  a <- lift (stack (map fst outs)) ;;
  b <- lift (stack (map snd outs)) ;;
  ret (a, b).

(** [1.0 / x] on Python floats: a zero divisor raises
    [ZeroDivisionError]. *)
Definition py_inv (x : T) : result T :=
  if s_is_zero x then Raise EvalError else Ok (sdiv s1 x).

End Arrays.

Arguments array T : clear implicits.

(** ** The noise model, the solvers and the wrappers *)

Section Wrappers.
Context {T : Type} `{Scalar T}.
Variable W : Type.       (* the ambient state *)
Variable key : Type.     (* [jax.random.PRNGKey] *)

(** A noise model is anything with [sample] and [log_prob]. *)
Record noise_model : Type := {
  sample : key -> list Z -> M W (array T);   (* seed, sample_shape *)
  log_prob : array T -> array T
}.

(** [jax.random.normal], from the JAX library. *)
Variable jax_random_normal : key -> list Z -> result (array T).

(** [jax.grad(f)] at a 0-d input, from the JAX library. *)
Variable jax_grad : (array T -> array T) -> T -> T.

(** class Normal *)
Definition Normal : noise_model := {|
  sample := fun seed sample_shape => lift (jax_random_normal seed sample_shape);
  log_prob := fun inputs => scale (sneg (s_lit (1 # 2))) (power inputs 2)
|}.

(** [solver(S, ncc)] and [csolver(S, ncc, C)] return [(A, M)]. *)
Definition solver_t : Type := array T -> Z -> M W (array T * array T).
Definition csolver_t : Type :=
  array T -> Z -> array T -> M W (array T * array T).

(** The outputs [(A_eps, F_eps, M_eps)] and their tangents. *)
Definition triple : Type := (array T * array T * array T)%type.

(** A [jax.custom_jvp] function after [defjvps]: the function and, for
    each positional argument, its rule or [None].  A rule receives the
    tangent of its argument, the output of the function, and the
    arguments. *)
Record custom_jvp (Args : Type) : Type := {
  call : Args -> M W triple;
  jvps : list (option (array T -> triple -> Args -> M W triple))
}.

(** [(num_samples,) + S.shape] *)
Definition batch_shape (num_samples : Z) (S : array T) : list Z :=
  num_samples :: map Z.of_nat (shape S).

(** [-jax.vmap(jax.grad(noise.log_prob))(samples.reshape([-1]))] *)
Definition nabla_flat (noise : noise_model) (samples : array T) : array T :=
  neg (map_array (jax_grad (log_prob noise)) (flatten samples)).

Section MakePertSolver.
Variable solver : solver_t.
Variable num_samples : Z.
Variable sigma : T.
Variable noise : noise_model.

(** [forward_pert], lines 34-37: [samples], [Ak_z], [Mk_z]. *)
Definition forward_pert_locals (S : array T) (ncc : Z) (rng : key)
  : M W (array T * array T * array T) :=
  samples <- sample noise rng (batch_shape num_samples S) ;;
  X <- lift (add S (scale sigma samples)) ;;
  ' (Ak_z, Mk_z) <- vmap2 (fun x => solver x ncc) X ;;
  ret (samples, Ak_z, Mk_z).

Definition forward_pert (S : array T) (ncc : Z) (rng : key) : M W triple :=
  ' (samples, Ak_z, Mk_z) <- forward_pert_locals S ncc rng ;;
  Akeps <- lift (mean0 Ak_z) ;;
  Mkeps <- lift (mean0 Mk_z) ;;
  X <- lift (add S (scale sigma samples)) ;;
  Xr <- lift (reshape_rows num_samples X) ;;
  Ar <- lift (reshape_rows num_samples Ak_z) ;;
  max_values <- lift (einsum_nd_nd_n Xr Ar) ;;
  let Fkeps := mean_all max_values in
  ret (Akeps, Fkeps, Mkeps).

(** [pert_jvp], lines 55-59. *)
Definition pert_jvp_locals (S : array T) (ncc : Z) (rng : key)
  : M W (array T * array T * array T) :=
  samples <- sample noise rng (batch_shape num_samples S) ;;
  X <- lift (add S (scale sigma samples)) ;;
  ' (Ak_z, Mk_z) <- vmap2 (fun x => solver x ncc) X ;;
  ret (samples, Ak_z, Mk_z).

Definition pert_jvp (tangent : array T) (_ : triple)
  (S : array T) (ncc : Z) (rng : key) : M W triple :=
  ' (samples, Ak_z, Mk_z) <- pert_jvp_locals S ncc rng ;;
  let nabla_z_flat := nabla_flat noise samples in
  c <- lift (py_inv (smul (s_of_Z num_samples) sigma)) ;;
  Ar <- lift (reshape_rows num_samples Ak_z) ;;
  Gr <- lift (reshape_rows num_samples nabla_z_flat) ;;
  e <- lift (einsum_nd_ne_e_d Ar Gr (flatten tangent)) ;;
  let tangent_flat := scale c e in
  jvp_argmax <- lift (reshape tangent_flat (shape S)) ;;
  pert_argmax <- lift (mean0 Ak_z) ;;
  prod <- lift (mul pert_argmax tangent) ;;
  let jvp_max := total prod in
  ret (jvp_argmax, jvp_max, zeros_like tangent).

(** [forward_pert.defjvps(pert_jvp, None, None)]; building the wrapper
    evaluates nothing and checks nothing. *)
Definition make_pert_solver : result (custom_jvp (array T * Z * key)) :=
  Ok {| call := fun '(S', ncc, rng) => forward_pert S' ncc rng;
        jvps := [ Some (fun tangent ans '(S', ncc, rng) =>
                          pert_jvp tangent ans S' ncc rng);
                  None; None ] |}.

End MakePertSolver.

Section MakePertCsolver.
Variable csolver : csolver_t.
Variable num_samples : Z.
Variable sigma : T.
Variable noise : noise_model.

(** The closures of [make_pert_csolver] are called [forward_pert] and
    [pert_jvp] too; here they are [cforward_pert] and [cpert_jvp]. *)
Definition cforward_pert_locals (S : array T) (ncc : Z) (C : array T)
  (rng : key) : M W (array T * array T * array T) :=
  samples <- sample noise rng (batch_shape num_samples S) ;;
  X <- lift (add S (scale sigma samples)) ;;
  ' (AkM_z, MkM_z) <- vmap2 (fun x => csolver x ncc C) X ;;
  ret (samples, AkM_z, MkM_z).

Definition cforward_pert (S : array T) (ncc : Z) (C : array T) (rng : key)
  : M W triple :=
  ' (samples, AkM_z, MkM_z) <- cforward_pert_locals S ncc C rng ;;
  AkMeps <- lift (mean0 AkM_z) ;;
  MkMeps <- lift (mean0 MkM_z) ;;
  X <- lift (add S (scale sigma samples)) ;;
  Xr <- lift (reshape_rows num_samples X) ;;
  Ar <- lift (reshape_rows num_samples AkM_z) ;;
  max_values <- lift (einsum_nd_nd_n Xr Ar) ;;
  let FkMeps := mean_all max_values in
  ret (AkMeps, FkMeps, MkMeps).

Definition cpert_jvp_locals (S : array T) (ncc : Z) (C : array T)
  (rng : key) : M W (array T * array T * array T) :=
  samples <- sample noise rng (batch_shape num_samples S) ;;
  X <- lift (add S (scale sigma samples)) ;;
  ' (AkM_z, MkM_z) <- vmap2 (fun x => csolver x ncc C) X ;;
  ret (samples, AkM_z, MkM_z).

Definition cpert_jvp (tangent : array T) (_ : triple)
  (S : array T) (ncc : Z) (C : array T) (rng : key) : M W triple :=
  ' (samples, AkM_z, MkM_z) <- cpert_jvp_locals S ncc C rng ;;
  let nabla_z_flat := nabla_flat noise samples in
  c <- lift (py_inv (smul (s_of_Z num_samples) sigma)) ;;
  Ar <- lift (reshape_rows num_samples AkM_z) ;;
  Gr <- lift (reshape_rows num_samples nabla_z_flat) ;;
  e <- lift (einsum_nd_ne_e_d Ar Gr (flatten tangent)) ;;
  let tangent_flat := scale c e in
  jvp_argmax <- lift (reshape tangent_flat (shape S)) ;;
  pert_argmax <- lift (mean0 AkM_z) ;;
  prod <- lift (mul pert_argmax tangent) ;;
  let jvp_max := total prod in
  ret (jvp_argmax, jvp_max, zeros_like tangent).

(** [forward_pert.defjvps(pert_jvp, None, None, None)]; [use_bias] is a
    parameter of [make_pert_csolver] that its body never reads. *)
Definition make_pert_csolver (use_bias : bool)
  : result (custom_jvp (array T * Z * array T * key)) :=
  Ok {| call := fun '(S', ncc, C, rng) => cforward_pert S' ncc C rng;
        jvps := [ Some (fun tangent ans '(S', ncc, C, rng) =>
                          cpert_jvp tangent ans S' ncc C rng);
                  None; None; None ] |}.

End MakePertCsolver.

(** The defaults of the keyword arguments. *)
Definition default_num_samples : Z := 1000.
Definition default_sigma : T := s_lit (1 # 10).
Definition default_use_bias : bool := true.

End Wrappers.

Arguments noise_model T W key : clear implicits.
Arguments solver_t T W : clear implicits.
Arguments csolver_t T W : clear implicits.
Arguments triple T : clear implicits.
Arguments custom_jvp T W Args : clear implicits.

(** ** The two closures after their first lines

    What [forward_pert] (lines 39-50) and [pert_jvp] (lines 62-75) compute
    from [samples], [Ak_z] and [Mk_z]: these steps call neither the noise
    model nor the solver. *)

Definition rbind {A B} (r : result A) (k : A -> result B) : result B :=
  match r with
  | Ok a => k a
  | Raise e => Raise e
  end.

Section Outputs.
Context {T : Type} `{Scalar T}.
Variables (W key : Type).
Variable jax_grad : (array T -> array T) -> T -> T.
Variable noise : noise_model T W key.
Variable num_samples : Z.
Variable sigma : T.

Definition forward_pert_outputs (S : array T)
  (locals : array T * array T * array T) : result (triple T) :=
  let '(samples, Ak_z, Mk_z) := locals in
  rbind (mean0 Ak_z) (fun Akeps =>
  rbind (mean0 Mk_z) (fun Mkeps =>
  rbind (add S (scale sigma samples)) (fun X =>
  rbind (reshape_rows num_samples X) (fun Xr =>
  rbind (reshape_rows num_samples Ak_z) (fun Ar =>
  rbind (einsum_nd_nd_n Xr Ar) (fun max_values =>
  Ok (Akeps, mean_all max_values, Mkeps))))))).

Definition pert_jvp_outputs (tangent S : array T)
  (locals : array T * array T * array T) : result (triple T) :=
  let '(samples, Ak_z, Mk_z) := locals in
  rbind (py_inv (smul (s_of_Z num_samples) sigma)) (fun c =>
  rbind (reshape_rows num_samples Ak_z) (fun Ar =>
  rbind (reshape_rows num_samples (nabla_flat jax_grad noise samples))
        (fun Gr =>
  rbind (einsum_nd_ne_e_d Ar Gr (flatten tangent)) (fun e =>
  rbind (reshape (scale c e) (shape S)) (fun jvp_argmax =>
  rbind (mean0 Ak_z) (fun pert_argmax =>
  rbind (mul pert_argmax tangent) (fun prod =>
  Ok (jvp_argmax, total prod, zeros_like tangent)))))))).

End Outputs.

(** ** Two interpretations of the scalars *)

(** Exact rational arithmetic, every result in lowest terms. *)
#[export] Instance Scalar_Q : Scalar Q := {|
  s0 := 0%Q;
  s1 := 1%Q;
  sadd := fun x y => Qred (x + y)%Q;
  smul := fun x y => Qred (x * y)%Q;
  sdiv := fun x y => Qred (x / y)%Q;
  sneg := fun x => Qred (- x)%Q;
  spow := fun x n => Qred (Qpower x (Z.of_nat n));
  s_of_Z := inject_Z;
  s_lit := Qred;
  s_is_zero := fun x => (Qnum x =? 0)%Z
|}.

(** The real numbers. *)
#[export] Instance Scalar_R : Scalar R := {|
  s0 := 0%R;
  s1 := 1%R;
  sadd := Rplus;
  smul := Rmult;
  sdiv := Rdiv;
  sneg := Ropp;
  spow := pow;
  s_of_Z := IZR;
  s_lit := Q2R;
  s_is_zero := fun x => if Req_dec_T x 0%R then true else false
|}.

(** ** What the wrappers are meant to compute

    The quantities of the specification, sample by sample. *)

Section Specification.
Context {T : Type} `{Scalar T}.
Variable W : Type.
Variable key : Type.

(** The draws [Z_1 .. Z_n]: the sample batch cut along its leading axis. *)
Definition draws (samples : array T) : list (array T) :=
  match slices samples with
  | Ok l => l
  | Raise _ => []
  end.

(** [S + sigma * Z_n] for one draw. *)
Definition perturbed_input (S : array T) (sigma : T) (Zn : array T)
  : array T :=
  mk_array (shape S) (zip_with sadd (data S) (map (smul sigma) (data Zn))).

(** The perturbed inputs [S + sigma * Z_n], one for each draw. *)
Definition perturbed_inputs (S : array T) (sigma : T) (samples : array T)
  : list (array T) :=
  map (perturbed_input S sigma) (draws samples).

(** The mean over samples of arrays of one shape. *)
Definition mean_over_samples (ts : list (array T)) : array T :=
  match ts with
  | [] => mk_array [] []
  | t :: _ =>
      mk_array (shape t)
        (map (fun x => sdiv x (s_of_Z (Z.of_nat (length ts))))
             (sum_rows (numel (shape t)) (map data ts)))
  end.

(** The mean over samples of numbers, a 0-d array. *)
Definition mean_of (l : list T) : array T :=
  mk_array [] [sdiv (sum l) (s_of_Z (Z.of_nat (length l)))].

(** [sum(flatten(X) * flatten(A))] *)
Definition inner (X A : array T) : T := dot (data X) (data A).

(** The negative gradient of [log_prob] at each element of a draw. *)
Definition grad_log_noise (jax_grad : (array T -> array T) -> T -> T)
  (noise : noise_model T W key) (Zn : array T) : list T :=
  map (fun z => sneg (jax_grad (log_prob noise) z)) (data Zn).

(** [Sum_n A_n * c_n] for arrays [A_n] of [k] elements and numbers [c_n]. *)
Definition weighted_sum (k : nat) (As : list (array T)) (cs : list T)
  : list T :=
  sum_rows k (map (fun p => map (fun a => smul a (snd p)) (data (fst p)))
                  (combine As cs)).

(** [(1 / (num_samples * sigma)) * Sum_n Ak_z[n] * (grad_log_noise[n] .
    flatten(t))], in the shape of [S]. *)
Definition argmax_jvp_spec (jax_grad : (array T -> array T) -> T -> T)
  (noise : noise_model T W key) (num_samples : Z) (sigma : T)
  (S : array T) (Zs As : list (array T)) (t : array T) : array T :=
  mk_array (shape S)
    (map (smul (sdiv s1 (smul (s_of_Z num_samples) sigma)))
         (weighted_sum (numel (shape S)) As
            (map (fun Zn => dot (grad_log_noise jax_grad noise Zn) (data t))
                 Zs))).

(** [sum(A * t)] for arrays of one shape, a 0-d array. *)
Definition contract (A t : array T) : array T :=
  mk_array [] [sum (zip_with smul (data A) (data t))].

(** A computation that neither reads nor changes the ambient state. *)
Definition pure {A : Type} (c : M W A) : Prop :=
  exists r, forall w, c w = (r, w).

(** [sample] is a function of the seed and the shape only. *)
Definition pure_noise (noise : noise_model T W key) : Prop :=
  forall seed sample_shape, pure (sample noise seed sample_shape).

Definition pure_solver (solver : solver_t T W) : Prop :=
  forall X ncc, pure (solver X ncc).

Definition pure_csolver (csolver : csolver_t T W) : Prop :=
  forall X ncc C, pure (csolver X ncc C).

(** The element of a 0-d array. *)
Definition item (a : array T) : T := hd s0 (data a).

End Specification.

(** ** A small concrete instance, on the rationals *)

Module Demo.

(** A stand-in for [jax.random.normal]: the values -1, 0, 1 in a cycle
    that starts at the seed. *)
Definition random_normal (seed : nat) (sample_shape : list Z)
  : result (array Q) :=
  if forallb (fun d => (0 <=? d)%Z) sample_shape
  then Ok (mk_array (map Z.to_nat sample_shape)
             (map (fun i => inject_Z (Z.of_nat ((seed + i) mod 3) - 1))
                  (seq 0 (numel (map Z.to_nat sample_shape)))))
  else Raise (Foreign 0).

(** A stand-in for [jax.grad]: the central difference with step 1, which
    is the derivative of a polynomial of degree 2. *)
Definition grad (f : array Q -> array Q) (x : Q) : Q :=
  Qred ((item (f (mk_array [] [Qred (x + 1)]))
         - item (f (mk_array [] [Qred (x - 1)]))) / 2)%Q.

Definition noise : noise_model Q nat nat := Normal nat random_normal.

(** A solver that returns its input as [A] and a fixed vector as [M]. *)
Definition solver : solver_t Q nat :=
  fun X ncc => ret (X, mk_array [3] [inject_Z ncc; 0%Q; 1%Q]).

Definition csolver : csolver_t Q nat :=
  fun X ncc C => solver X ncc.

(** A solver that is not pure: it counts its calls in the ambient state
    and scales its output by the count. *)
Definition counting_solver : solver_t Q nat :=
  fun X ncc w =>
    (Ok (scale (inject_Z (Z.of_nat w)) X, mk_array [3] [inject_Z ncc; 0%Q; 1%Q]),
     S w).

Definition S22 : array Q := mk_array [2; 2] [1%Q; 2%Q; 3%Q; 4%Q].
Definition t22 : array Q := mk_array [2; 2] [1%Q; 0%Q; 0%Q; 1%Q].
Definition C22 : array Q := mk_array [2; 2] [0%Q; 1%Q; 1%Q; 0%Q].

(** The batch of two draws that [random_normal] returns for seed 0 and
    the shape of [S22], and the two outputs of [solver] for [ncc = 2]. *)
Definition samples : array Q :=
  mk_array [2; 2; 2]
    [(-1)%Q; 0%Q; 1%Q; (-1)%Q; 0%Q; 1%Q; (-1)%Q; 0%Q].
Definition fA (X : array Q) : array Q := X.
Definition fM (X : array Q) : array Q := mk_array [3] [2%Q; 0%Q; 1%Q].

End Demo.

(** ** Further laws of exact arithmetic

    What linearity in the tangent needs besides [ExactArith]. *)

Class CommArith (T : Type) `{Scalar T} : Prop := {
  smul_comm : forall a b : T, smul a b = smul b a;
  sadd_assoc : forall a b c : T, sadd (sadd a b) c = sadd a (sadd b c);
  sadd_comm : forall a b : T, sadd a b = sadd b a;
  sadd_0_0 : sadd (s0 : T) s0 = s0
}.
Arguments CommArith T {_}.

(** ** Further noise models, and a real-valued instance *)

Module Cases.

(** A noise model whose [sample] raises. *)
Definition broken_noise : noise_model Q nat nat := {|
  sample := fun seed sample_shape => lift (Raise (Foreign 3));
  log_prob := fun inputs => inputs
|}.

(** On the reals: a noise model that draws zeros, a solver that ignores
    its input, and a 2 x 2 input. *)
Definition zero_noise : noise_model R nat nat := {|
  sample := fun seed sample_shape =>
    lift (Ok (mk_array (map Z.to_nat sample_shape)
                (repeat 0%R (numel (map Z.to_nat sample_shape)))));
  log_prob := fun inputs => inputs
|}.
Definition SR : array R := mk_array [2; 2] [1%R; 2%R; 3%R; 4%R].
Definition AR : array R := mk_array [2; 2] [1%R; 0%R; 0%R; 1%R].
Definition MR : array R := mk_array [2] [0%R; 0%R].
Definition fixed_solver : solver_t R nat := fun X ncc => ret (AR, MR).
Definition zerosR : array R := mk_array [2; 2; 2] (repeat 0%R 8).

(** A noise model that samples as [Demo.noise] does and has another
    [log_prob]. *)
Definition flat_noise : noise_model Q nat nat := {|
  sample := sample Demo.noise;
  log_prob := fun inputs => inputs
|}.

End Cases.

(** * Part II: properties *)

(** ** Lists *)

Section ListFacts.
Context {A : Type}.
Implicit Types (u v l d : list A) (f : A -> A -> A).

Lemma zip_with_length f u v :
  length (zip_with f u v) = Nat.min (length u) (length v).
Proof.
  revert v; induction u as [|x u IH]; intros [|y v]; simpl; auto.
Qed.

Lemma zip_with_firstn f k u v :
  firstn k (zip_with f u v) = zip_with f (firstn k u) (firstn k v).
Proof.
  revert u v; induction k as [|k IH]; intros [|x u] [|y v]; simpl; auto.
  now rewrite IH.
Qed.

Lemma zip_with_skipn f k u v :
  skipn k (zip_with f u v) = zip_with f (skipn k u) (skipn k v).
Proof.
  revert u v; induction k as [|k IH]; intros [|x u] [|y v]; simpl; auto.
  now destruct (skipn k u).
Qed.

Lemma zip_with_nth f u v j (a : A) :
  j < length u -> j < length v ->
  nth j (zip_with f u v) a = f (nth j u a) (nth j v a).
Proof.
  revert u v; induction j as [|j IH]; intros [|x u] [|y v]; simpl;
    try lia; auto.
  intros; apply IH; lia.
Qed.

Lemma chunks_length k n l : length (chunks k n l) = n.
Proof. revert l; induction n; simpl; auto. Qed.

Lemma chunks_concat k n l :
  length l = n * k -> concat (chunks k n l) = l.
Proof.
  revert l; induction n as [|n IH]; simpl; intros l Hl.
  - now destruct l.
  - rewrite IH, firstn_skipn; auto. rewrite length_skipn. lia.
Qed.

Lemma chunks_Forall k n l :
  length l = n * k -> Forall (fun c => length c = k) (chunks k n l).
Proof.
  revert l; induction n as [|n IH]; simpl; intros l Hl; constructor.
  - rewrite length_firstn. lia.
  - apply IH. rewrite length_skipn. lia.
Qed.

Lemma chunks_of_concat k (ls : list (list A)) :
  Forall (fun c => length c = k) ls ->
  chunks k (length ls) (concat ls) = ls.
Proof.
  induction 1 as [|c ls Hc _ IH]; simpl; auto.
  rewrite firstn_app, skipn_app, Hc, Nat.sub_diag, firstn_all2, skipn_all2
    by lia.
  simpl. now rewrite app_nil_r, IH.
Qed.

Lemma chunks_repeat k n d :
  length d = k -> chunks k n (concat (repeat d n)) = repeat d n.
Proof.
  intros Hd. rewrite <- (repeat_length d n) at 1.
  apply chunks_of_concat, Forall_forall.
  intros c Hc. now rewrite (repeat_spec _ _ _ Hc).
Qed.

Lemma chunks_zip_with f k n u v :
  chunks k n (zip_with f u v) =
  map (fun p => zip_with f (fst p) (snd p))
      (combine (chunks k n u) (chunks k n v)).
Proof.
  revert u v; induction n as [|n IH]; simpl; intros u v; auto.
  now rewrite zip_with_firstn, zip_with_skipn, IH.
Qed.

Lemma chunks_map (g : A -> A) k n l :
  chunks k n (map g l) = map (map g) (chunks k n l).
Proof.
  revert l; induction n as [|n IH]; simpl; intros l; auto.
  now rewrite firstn_map, skipn_map, IH.
Qed.

Lemma concat_length_uniform k (ls : list (list A)) :
  Forall (fun c => length c = k) ls ->
  length (concat ls) = length ls * k.
Proof.
  induction 1 as [|c ls Hc _ IH]; simpl; auto.
  rewrite length_app. lia.
Qed.

Lemma combine_repeat_l {B} (x : A) (l : list B) :
  combine (repeat x (length l)) l = map (pair x) l.
Proof. induction l; simpl; congruence. Qed.

Lemma combine_map_same {B C} (g : A -> B) (h : A -> C) (l : list A) :
  combine (map g l) (map h l) = map (fun x => (g x, h x)) l.
Proof. induction l; simpl; congruence. Qed.

End ListFacts.

(** ** Shapes and broadcasting *)

Section ArrayFacts.
Context {T : Type} `{Scalar T}.
Implicit Types (a b : array T) (sh : list nat) (d : list T).

Lemma shape_eqb_eq sh sh' : shape_eqb sh sh' = true <-> sh = sh'.
Proof.
  revert sh'; induction sh as [|x sh IH]; intros [|y sh']; simpl;
    try (split; [discriminate|congruence]); try tauto.
  rewrite andb_true_iff, Nat.eqb_eq, IH. split.
  - intros [-> ->]; reflexivity.
  - intros [= -> ->]; auto.
Qed.

Lemma bshape_rev_same sh : bshape_rev sh sh = Some sh.
Proof.
  induction sh as [|x sh IH]; simpl; auto.
  now rewrite IH, Nat.eqb_refl.
Qed.

Lemma bshape_rev_snoc sh n : bshape_rev sh (sh ++ [n]) = Some (sh ++ [n]).
Proof.
  induction sh as [|x sh IH]; simpl; auto.
  now rewrite IH, Nat.eqb_refl.
Qed.

Lemma broadcast_shapes_same sh : broadcast_shapes sh sh = Some sh.
Proof.
  unfold broadcast_shapes. rewrite bshape_rev_same. simpl.
  now rewrite rev_involutive.
Qed.

Lemma broadcast_shapes_leading sh n :
  broadcast_shapes sh (n :: sh) = Some (n :: sh).
Proof.
  unfold broadcast_shapes. simpl rev. rewrite bshape_rev_snoc. simpl.
  now rewrite rev_app_distr, rev_involutive.
Qed.

Lemma expand_same sh d : length d = numel sh -> expand sh sh d = d.
Proof.
  revert d; induction sh as [|s sh IH]; simpl; intros d Hd; auto.
  rewrite Nat.eqb_refl.
  rewrite <- (chunks_concat (numel sh) s d) at 2 by exact Hd.
  f_equal. rewrite <- (map_id (chunks (numel sh) s d)) at 2.
  apply map_ext_in. intros c Hc. apply IH.
  pose proof (chunks_Forall (numel sh) s d Hd) as HF.
  rewrite Forall_forall in HF. now apply HF.
Qed.

Lemma pad_shape_same sh : pad_shape sh (length sh) = sh.
Proof. unfold pad_shape. now rewrite Nat.sub_diag. Qed.

Lemma pad_shape_leading sh : pad_shape sh (S (length sh)) = 1 :: sh.
Proof.
  unfold pad_shape.
  replace (S (length sh) - length sh) with 1 by lia. reflexivity.
Qed.

Lemma broadcast_to_same a : wf a -> broadcast_to a (shape a) = data a.
Proof.
  intros Ha. unfold broadcast_to. rewrite pad_shape_same.
  now apply expand_same.
Qed.

Lemma broadcast_to_leading a n :
  wf a -> broadcast_to a (n :: shape a) = concat (repeat (data a) n).
Proof.
  intros Ha. unfold broadcast_to. simpl length.
  rewrite pad_shape_leading. cbn [expand].
  destruct (Nat.eqb_spec 1 n) as [<-|Hn].
  - simpl. rewrite firstn_all2 by (rewrite Ha; lia).
    rewrite expand_same by exact Ha. reflexivity.
  - rewrite expand_same by exact Ha. reflexivity.
Qed.

(** Two arrays of one shape combine element by element. *)
Lemma binop_same (f : T -> T -> T) a b :
  shape b = shape a -> wf a -> wf b ->
  binop f a b = Ok (mk_array (shape a) (zip_with f (data a) (data b))).
Proof.
  intros Hs Ha Hb. unfold binop. rewrite Hs, broadcast_shapes_same.
  rewrite broadcast_to_same by assumption.
  rewrite <- Hs, broadcast_to_same by assumption. reflexivity.
Qed.

(** An array combines with every slice of a batch of its shape. *)
Lemma binop_leading (f : T -> T -> T) a b n :
  shape b = n :: shape a -> wf a -> wf b ->
  binop f a b =
  Ok (mk_array (n :: shape a)
        (zip_with f (concat (repeat (data a) n)) (data b))).
Proof.
  intros Hs Ha Hb. unfold binop. rewrite Hs, broadcast_shapes_leading.
  rewrite broadcast_to_leading by assumption.
  rewrite <- Hs, broadcast_to_same by assumption. reflexivity.
Qed.

Lemma numel_cons n sh : numel (n :: sh) = n * numel sh.
Proof. reflexivity. Qed.

Lemma chunks_broadcast (f : T -> T -> T) k n d (l : list T) :
  length d = k ->
  chunks k n (zip_with f (concat (repeat d n)) l) =
  map (zip_with f d) (chunks k n l).
Proof.
  intros Hd. rewrite chunks_zip_with, chunks_repeat by assumption.
  rewrite <- (chunks_length k n l) at 1.
  rewrite combine_repeat_l, map_map. reflexivity.
Qed.

End ArrayFacts.

(** ** Running computations *)

Section EffFacts.
Context {W : Type}.

Lemma bind_ok {A B} (c : M W A) (k : A -> M W B) w a w' :
  c w = (Ok a, w') -> bind c k w = k a w'.
Proof. unfold bind. now intros ->. Qed.

Lemma bind_raise {A B} (c : M W A) (k : A -> M W B) w e w' :
  c w = (Raise e, w') -> bind c k w = (Raise e, w').
Proof. unfold bind. now intros ->. Qed.

Lemma bind_lift {A B} (r : result A) (k : A -> M W B) w a :
  r = Ok a -> bind (lift r) k w = k a w.
Proof. now intros ->. Qed.

(** A callable that behaves as a function: so does its map. *)
Lemma mapM_fn {A B} (f : A -> M W B) (g : A -> B) (l : list A) w :
  (forall x w', In x l -> f x w' = (Ok (g x), w')) ->
  mapM f l w = (Ok (map g l), w).
Proof.
  induction l as [|x l IH]; simpl; intros Hf; auto.
  rewrite (bind_ok _ _ _ (Hf x w (or_introl eq_refl))).
  rewrite (bind_ok _ _ _ (IH (fun y w' Hy => Hf y w' (or_intror Hy)))).
  reflexivity.
Qed.

Lemma mapM_ext {A B} (f g : A -> M W B) (l : list A) w :
  (forall x w', f x w' = g x w') -> mapM f l w = mapM g l w.
Proof.
  intros Hfg. revert w; induction l as [|x l IH]; simpl; intros w; auto.
  unfold bind. rewrite Hfg. destruct (g x w) as [[y|e] w']; auto.
  rewrite IH. reflexivity.
Qed.

End EffFacts.

(** ** Stacking, slicing and reducing *)

Section BatchFacts.
Context {T : Type} `{Scalar T}.
Implicit Types (a : array T) (sh : list nat) (l : list (array T)).

Lemma stack_uniform sh a l :
  Forall (fun b => shape b = sh) (a :: l) ->
  stack (a :: l) =
  Ok (mk_array (length (a :: l) :: sh) (concat (map data (a :: l)))).
Proof.
  intros HF. unfold stack.
  assert (Ha : shape a = sh) by now inversion HF.
  replace (forallb (fun b => shape_eqb (shape b) (shape a)) (a :: l))
    with true; [now rewrite Ha|].
  symmetry. apply forallb_forall. intros b Hb. apply shape_eqb_eq.
  rewrite Forall_forall in HF. now rewrite (HF b Hb).
Qed.

Lemma mean0_stack sh a l :
  Forall (fun b => shape b = sh /\ wf b) (a :: l) ->
  mean0 (mk_array (length (a :: l) :: sh) (concat (map data (a :: l)))) =
  Ok (mean_over_samples (a :: l)).
Proof.
  intros HF. unfold mean0, mean_over_samples.
  assert (Ha : shape a = sh) by (inversion HF; tauto).
  cbn [shape data]. rewrite Ha.
  rewrite <- (length_map data (a :: l)), chunks_of_concat; auto.
  apply Forall_map. eapply Forall_impl; [|exact HF].
  intros b [Hb Hw]. now rewrite Hw, Hb.
Qed.

Lemma reshape_rows_batch (num_samples : Z) sh (d : list T) :
  (0 < num_samples)%Z ->
  reshape_rows num_samples (mk_array (Z.to_nat num_samples :: sh) d) =
  Ok (mk_array [Z.to_nat num_samples; numel sh] d).
Proof.
  intros Hn. unfold reshape_rows. cbn [shape data].
  destruct (Z.leb_spec num_samples 0) as [Hle|_]; [lia|].
  assert (Hnz : Z.to_nat num_samples <> 0) by lia.
  rewrite numel_cons, Nat.mul_comm, Nat.Div0.mod_mul, Nat.div_mul by exact Hnz.
  reflexivity.
Qed.

End BatchFacts.

(** ** Sums of rows and contractions *)

Section ReductionFacts.
Context {T : Type} `{Scalar T}.
Implicit Types (rows : list (list T)) (acc u v : list T).

Lemma reshape_rows_numel (num_samples : Z) (a : array T) k :
  (0 < num_samples)%Z ->
  numel (shape a) = Z.to_nat num_samples * k ->
  reshape_rows num_samples a = Ok (mk_array [Z.to_nat num_samples; k] (data a)).
Proof.
  intros Hn Hk. unfold reshape_rows.
  destruct (Z.leb_spec num_samples 0) as [Hle|_]; [lia|].
  assert (Hnz : Z.to_nat num_samples <> 0) by lia.
  rewrite Hk, Nat.mul_comm, Nat.Div0.mod_mul, Nat.div_mul by exact Hnz.
  reflexivity.
Qed.

Lemma map_seq_nth (l : list T) (d : T) :
  map (fun j => nth j l d) (seq 0 (length l)) = l.
Proof.
  induction l as [|x l IH]; simpl; auto.
  rewrite <- seq_shift, map_map. simpl. now rewrite IH.
Qed.

Lemma fold_zip_length rows acc k :
  length acc = k -> Forall (fun r => length r = k) rows ->
  length (fold_left (zip_with sadd) rows acc) = k.
Proof.
  intros Hacc HF. revert acc Hacc.
  induction HF as [|r rows Hr _ IH]; simpl; intros acc Hacc; auto.
  apply IH. rewrite zip_with_length. lia.
Qed.

Lemma sum_rows_length rows k :
  Forall (fun r => length r = k) rows -> length (sum_rows k rows) = k.
Proof. intros HF. apply fold_zip_length; auto. apply repeat_length. Qed.

(** The sum of rows, computed column by column. *)
Lemma fold_zip_columns rows acc k :
  length acc = k -> Forall (fun r => length r = k) rows ->
  fold_left (zip_with sadd) rows acc =
  map (fun j => fold_left sadd (map (fun r => nth j r s0) rows) (nth j acc s0))
      (seq 0 k).
Proof.
  intros Hacc HF. revert acc Hacc.
  induction HF as [|r rows Hr _ IH]; simpl; intros acc Hacc.
  - subst k. symmetry. apply map_seq_nth.
  - rewrite IH by (rewrite zip_with_length; lia).
    apply map_ext_in. intros j Hj. apply in_seq in Hj.
    rewrite zip_with_nth by lia. reflexivity.
Qed.

Lemma sum_rows_columns rows k :
  Forall (fun r => length r = k) rows ->
  sum_rows k rows =
  map (fun j => sum (map (fun r => nth j r s0) rows)) (seq 0 k).
Proof.
  intros HF. unfold sum_rows.
  rewrite (@fold_zip_columns rows _ k (repeat_length _ _) HF).
  apply map_ext_in. intros j Hj. apply in_seq in Hj.
  unfold sum. f_equal. apply nth_repeat.
Qed.

(** In exact arithmetic a common factor leaves a contraction. *)
Lemma dot_factor {E : ExactArith T} (c : T) u v :
  sum (zip_with smul (map (smul c) u) v) = smul c (dot u v).
Proof.
  unfold dot, sum. rewrite <- (smul_0_r c) at 1.
  generalize (@s0 T _). revert v.
  induction u as [|x u IH]; intros [|y v] acc; simpl; auto.
  rewrite smul_assoc, <- smul_add_distr_l. apply IH.
Qed.

End ReductionFacts.

(** ** The wrappers on a well-behaved solver and noise model

    The assumptions of this section are the contract of the specification:
    a positive number of samples, a noise model whose [sample] returns a
    batch of the requested shape, and a solver that is a function of its
    input, [X |-> (fA X, fM X)], with [fA X] of the shape of [X] and [fM X]
    of the connectivity shape [msh]. *)

Section Contract.
Context {T : Type} `{Scalar T}.
Variables (W key : Type).
Variable jax_grad : (array T -> array T) -> T -> T.
Variable solver : solver_t T W.
Variable num_samples : Z.
Variable sigma : T.
Variable noise : noise_model T W key.
Variables (S : array T) (ncc : Z) (rng : key).
Variable samples : array T.
Variables fA fM : array T -> array T.
Variable msh : list nat.

Hypothesis Hn : (0 < num_samples)%Z.
Hypothesis HS : wf S.
Hypothesis Hdraw :
  forall w, sample noise rng (batch_shape num_samples S) w = (Ok samples, w).
Hypothesis Hshape : shape samples = Z.to_nat num_samples :: shape S.
Hypothesis Hwf : wf samples.
Hypothesis Hsolver :
  forall X w, shape X = shape S -> wf X ->
              solver X ncc w = (Ok (fA X, fM X), w).
Hypothesis HfA :
  forall X, shape X = shape S -> wf X -> shape (fA X) = shape S /\ wf (fA X).
Hypothesis HfM :
  forall X, shape X = shape S -> wf X -> shape (fM X) = msh /\ wf (fM X).

Local Abbreviation n := (Z.to_nat num_samples).
Local Abbreviation Xs := (perturbed_inputs S sigma samples).

(** The batch [S + sigma * samples]. *)
Lemma perturbed_batch :
  add S (scale sigma samples) =
  Ok (mk_array (n :: shape S)
        (zip_with sadd (concat (repeat (data S) n))
                  (map (smul sigma) (data samples)))).
Proof.
  unfold add. apply binop_leading; auto.
  unfold wf, scale, map_array. cbn [shape data].
  now rewrite length_map.
Qed.

Lemma draws_chunks :
  draws samples =
  map (mk_array (shape S)) (chunks (numel (shape S)) n (data samples)).
Proof. unfold draws, slices. now rewrite Hshape. Qed.

Lemma samples_length : length (data samples) = n * numel (shape S).
Proof. rewrite Hwf, Hshape. reflexivity. Qed.

Lemma perturbed_inputs_length : length Xs = n.
Proof.
  unfold perturbed_inputs. rewrite draws_chunks, !length_map.
  apply chunks_length.
Qed.

Lemma perturbed_inputs_data :
  map data Xs =
  chunks (numel (shape S)) n
    (zip_with sadd (concat (repeat (data S) n))
              (map (smul sigma) (data samples))).
Proof.
  rewrite chunks_broadcast by exact HS. rewrite chunks_map.
  unfold perturbed_inputs. rewrite draws_chunks, !map_map. reflexivity.
Qed.

(** Cutting the batch gives the perturbed inputs, one for each draw. *)
Lemma slices_perturbed_batch :
  slices (mk_array (n :: shape S)
            (zip_with sadd (concat (repeat (data S) n))
                      (map (smul sigma) (data samples)))) = Ok Xs.
Proof.
  unfold slices. cbn [shape data]. f_equal.
  rewrite <- perturbed_inputs_data, map_map.
  unfold perturbed_inputs. rewrite !map_map. reflexivity.
Qed.

Lemma perturbed_inputs_wf :
  Forall (fun X => shape X = shape S /\ wf X) Xs.
Proof.
  unfold perturbed_inputs. rewrite draws_chunks, map_map.
  apply Forall_map.
  eapply Forall_impl; [|apply chunks_Forall, samples_length].
  intros c Hc. split; [reflexivity|].
  unfold wf, perturbed_input. cbn [shape data].
  rewrite zip_with_length, length_map, Hc, HS. lia.
Qed.

Lemma perturbed_inputs_cons : exists X l, Xs = X :: l.
Proof.
  pose proof perturbed_inputs_length as Hl.
  destruct Xs as [|X l]; [simpl in Hl; lia|eauto].
Qed.

(** The batched solver call returns the stacked outputs on the perturbed
    inputs. *)
Lemma vmap2_solver w :
  vmap2 (fun x => solver x ncc)
        (mk_array (n :: shape S)
           (zip_with sadd (concat (repeat (data S) n))
                     (map (smul sigma) (data samples)))) w =
  (Ok (mk_array (n :: shape S) (concat (map data (map fA Xs))),
       mk_array (n :: msh) (concat (map data (map fM Xs)))), w).
Proof.
  unfold vmap2.
  rewrite (bind_lift _ _ slices_perturbed_batch).
  pose proof perturbed_inputs_wf as HF. rewrite Forall_forall in HF.
  erewrite bind_ok; cycle 1.
  { apply mapM_fn with (g := fun X => (fA X, fM X)).
    intros X w' HX. destruct (HF X HX). now apply Hsolver. }
  rewrite !map_map. cbn [fst snd].
  pose proof perturbed_inputs_length as Hl.
  destruct perturbed_inputs_cons as (X & l & HX).
  rewrite HX in *.
  assert (HFA : Forall (fun b => shape b = shape S) (map fA (X :: l))).
  { apply Forall_map, Forall_forall. intros Y HY.
    destruct (HF Y HY). now apply HfA. }
  assert (HFM : Forall (fun b => shape b = msh) (map fM (X :: l))).
  { apply Forall_map, Forall_forall. intros Y HY.
    destruct (HF Y HY). now apply HfM. }
  cbn [map] in HFA, HFM |- *.
  erewrite bind_lift by (apply stack_uniform; exact HFA).
  erewrite bind_lift by (apply stack_uniform; exact HFM).
  cbn [length map] in Hl |- *. rewrite !length_map, Hl, !map_map.
  reflexivity.
Qed.

Lemma forward_pert_locals_run w :
  forward_pert_locals solver num_samples sigma noise S ncc rng w =
  (Ok (samples,
       mk_array (n :: shape S) (concat (map data (map fA Xs))),
       mk_array (n :: msh) (concat (map data (map fM Xs)))), w).
Proof.
  unfold forward_pert_locals.
  rewrite (bind_ok _ _ _ (Hdraw w)).
  rewrite (bind_lift _ _ perturbed_batch).
  rewrite (bind_ok _ _ _ (vmap2_solver w)). reflexivity.
Qed.

Lemma outputs_wf (f : array T -> array T) sh :
  (forall X, shape X = shape S -> wf X -> shape (f X) = sh /\ wf (f X)) ->
  Forall (fun b => shape b = sh /\ wf b) (map f Xs).
Proof.
  intros Hf. apply Forall_map.
  eapply Forall_impl; [|exact perturbed_inputs_wf].
  intros X [HX HXw]. now apply Hf.
Qed.

Lemma outputs_chunks (f : array T -> array T) sh :
  (forall X, shape X = shape S -> wf X -> shape (f X) = sh /\ wf (f X)) ->
  chunks (numel sh) n (concat (map data (map f Xs))) = map data (map f Xs).
Proof.
  intros Hf. rewrite <- perturbed_inputs_length at 1.
  rewrite <- (length_map f), <- (length_map data).
  apply chunks_of_concat, Forall_map.
  eapply Forall_impl; [|exact (outputs_wf f Hf)].
  intros b [Hb Hw]. now rewrite Hw, Hb.
Qed.

Lemma mean0_outputs (f : array T -> array T) sh :
  (forall X, shape X = shape S -> wf X -> shape (f X) = sh /\ wf (f X)) ->
  mean0 (mk_array (n :: sh) (concat (map data (map f Xs)))) =
  Ok (mean_over_samples (map f Xs)).
Proof.
  intros Hf. pose proof (outputs_wf f Hf) as HF.
  pose proof perturbed_inputs_length as Hl.
  destruct perturbed_inputs_cons as (X & l & HX). rewrite HX in *.
  cbn [map] in HF |- *. rewrite <- Hl, <- (length_map f (X :: l)).
  cbn [map]. now apply mean0_stack.
Qed.

Lemma mean_over_samples_shape (f : array T -> array T) sh :
  (forall X, shape X = shape S -> wf X -> shape (f X) = sh /\ wf (f X)) ->
  shape (mean_over_samples (map f Xs)) = sh.
Proof.
  intros Hf. pose proof (outputs_wf f Hf) as HF.
  destruct perturbed_inputs_cons as (X & l & HX). rewrite HX in *.
  cbn [map mean_over_samples shape] in *. now inversion HF.
Qed.

(** The row-wise inner products of the perturbed inputs and the solver's
    first outputs. *)
Lemma max_values_run :
  einsum_nd_nd_n
    (mk_array [n; numel (shape S)]
       (zip_with sadd (concat (repeat (data S) n))
                 (map (smul sigma) (data samples))))
    (mk_array [n; numel (shape S)] (concat (map data (map fA Xs)))) =
  Ok (mk_array [n] (map (fun X => inner X (fA X)) Xs)).
Proof.
  unfold einsum_nd_nd_n. cbn [shape data]. rewrite !Nat.eqb_refl.
  cbn [andb]. rewrite <- perturbed_inputs_data, (outputs_chunks fA HfA).
  rewrite map_map, combine_map_same, map_map. reflexivity.
Qed.

(** Forward evaluation, as the program evaluates it. *)
Lemma forward_pert_run (w : W) :
  forward_pert solver num_samples sigma noise S ncc rng w =
  (Ok (mean_over_samples (map fA Xs),
       mean_of (map (fun X => inner X (fA X)) Xs),
       mean_over_samples (map fM Xs)), w).
Proof.
  unfold forward_pert.
  rewrite (bind_ok _ _ _ (forward_pert_locals_run w)).
  rewrite (bind_lift _ _ (mean0_outputs fA HfA)).
  rewrite (bind_lift _ _ (mean0_outputs fM HfM)).
  rewrite (bind_lift _ _ perturbed_batch).
  rewrite (bind_lift _ _ (reshape_rows_batch _ _ Hn)).
  rewrite (bind_lift _ _ (reshape_rows_batch _ _ Hn)).
  rewrite (bind_lift _ _ max_values_run).
  unfold ret, mean_all, mean_of. cbn [shape data numel fold_right].
  rewrite Nat.mul_1_r, !length_map, perturbed_inputs_length.
  reflexivity.
Qed.

(** C1.  On a well-behaved solver and noise model, forward evaluation of
    the wrapper built by [make_pert_solver] returns [(A_eps, F_eps,
    M_eps)]: [A_eps] is the mean over the samples of the solver's first
    output on the perturbed inputs [S + sigma * Z_n], [M_eps] the mean of
    its second output, and [F_eps] the mean of the inner products
    [sum(flatten(S + sigma * Z_n) * flatten(Ak_z[n]))].  [A_eps] has the
    shape of [S], [F_eps] is a 0-d array, and [M_eps] has the solver's
    connectivity shape. *)
Theorem forward_pert_monte_carlo (w : W) :
  exists wrapper A_eps F_eps M_eps,
    make_pert_solver jax_grad solver num_samples sigma noise = Ok wrapper /\
    call wrapper (S, ncc, rng) w = (Ok (A_eps, F_eps, M_eps), w) /\
    A_eps = mean_over_samples (map fA Xs) /\
    F_eps = mean_of (map (fun X => inner X (fA X)) Xs) /\
    M_eps = mean_over_samples (map fM Xs) /\
    shape A_eps = shape S /\ shape F_eps = [] /\ shape M_eps = msh.
Proof.
  eexists; do 3 eexists.
  split; [reflexivity|].
  split; [|repeat split;
            [exact (mean_over_samples_shape fA HfA)
            |exact (mean_over_samples_shape fM HfM)]].
  cbn [call]. apply forward_pert_run.
Qed.

(** *** The derivative rule *)

Variable tangent : array T.
Variable ans : triple T.

Hypothesis Ht : shape tangent = shape S.
Hypothesis Htw : wf tangent.
Hypothesis Hsigma : s_is_zero (smul (s_of_Z num_samples) sigma) = false.

Local Abbreviation k := (numel (shape S)).
Local Abbreviation Zs := (draws samples).

Lemma nabla_chunks :
  chunks k n (data (nabla_flat jax_grad noise samples)) =
  map (grad_log_noise jax_grad noise) Zs.
Proof.
  unfold nabla_flat, neg, map_array, flatten. cbn [data].
  rewrite !chunks_map, draws_chunks, !map_map.
  apply map_ext. intros c. unfold grad_log_noise. cbn [data].
  now rewrite map_map.
Qed.

Lemma nabla_rows :
  reshape_rows num_samples (nabla_flat jax_grad noise samples) =
  Ok (mk_array [n; k] (data (nabla_flat jax_grad noise samples))).
Proof.
  apply reshape_rows_numel; auto.
  unfold nabla_flat, neg, map_array, flatten. cbn [shape numel fold_right].
  rewrite Nat.mul_1_r, Hshape. reflexivity.
Qed.

(** The contraction ['nd,ne,e->d'] as the program evaluates it. *)
Lemma einsum_run :
  einsum_nd_ne_e_d
    (mk_array [n; k] (concat (map data (map fA Xs))))
    (mk_array [n; k] (data (nabla_flat jax_grad noise samples)))
    (flatten tangent) =
  Ok (mk_array [k]
        (map (fun j =>
                sum (map (fun Zn =>
                            sum (zip_with smul
                                   (map (smul (nth j (data (fA (perturbed_input
                                                               S sigma Zn))) s0))
                                        (grad_log_noise jax_grad noise Zn))
                                   (data tangent)))
                         Zs))
             (seq 0 k))).
Proof.
  unfold einsum_nd_ne_e_d, flatten. cbn [shape data].
  rewrite Ht, !Nat.eqb_refl. cbn [andb].
  rewrite (outputs_chunks fA HfA), nabla_chunks.
  unfold perturbed_inputs. rewrite !map_map, combine_map_same.
  do 2 f_equal. apply map_ext. intros j. now rewrite map_map.
Qed.

Lemma mean_over_samples_wf (f : array T -> array T) sh :
  (forall X, shape X = shape S -> wf X -> shape (f X) = sh /\ wf (f X)) ->
  wf (mean_over_samples (map f Xs)).
Proof.
  intros Hf. pose proof (outputs_wf f Hf) as HF.
  destruct perturbed_inputs_cons as (X & l & HX). rewrite HX in *.
  cbn [map] in *. unfold wf, mean_over_samples. cbn [shape data].
  assert (HfX : shape (f X) = sh) by (inversion HF; tauto).
  rewrite length_map. apply sum_rows_length.
  change (data (f X) :: map data (map f l)) with (map data (f X :: map f l)).
  apply Forall_map. eapply Forall_impl; [|exact HF].
  intros b [Hb Hw]. now rewrite Hw, Hb, HfX.
Qed.

(** The derivative rule, as the program evaluates it. *)
Lemma pert_jvp_run (w : W) :
  pert_jvp jax_grad solver num_samples sigma noise tangent ans S ncc rng w =
  (Ok (mk_array (shape S)
         (map (smul (sdiv s1 (smul (s_of_Z num_samples) sigma)))
            (map (fun j =>
                    sum (map (fun Zn =>
                                sum (zip_with smul
                                       (map (smul (nth j (data (fA (perturbed_input
                                                               S sigma Zn))) s0))
                                            (grad_log_noise jax_grad noise Zn))
                                       (data tangent)))
                             Zs))
                 (seq 0 k))),
       contract (mean_over_samples (map fA Xs)) tangent,
       zeros_like tangent), w).
Proof.
  unfold pert_jvp.
  change (pert_jvp_locals solver num_samples sigma noise S ncc rng)
    with (forward_pert_locals solver num_samples sigma noise S ncc rng).
  rewrite (bind_ok _ _ _ (forward_pert_locals_run w)).
  unfold py_inv. rewrite Hsigma.
  rewrite (bind_lift _ _ eq_refl).
  rewrite (bind_lift _ _ (reshape_rows_batch _ _ Hn)).
  rewrite (bind_lift _ _ nabla_rows).
  rewrite (bind_lift _ _ einsum_run).
  unfold reshape, scale, map_array. cbn [shape data numel fold_right].
  rewrite Nat.mul_1_r, Nat.eqb_refl.
  rewrite (bind_lift _ _ eq_refl).
  rewrite (bind_lift _ _ (mean0_outputs fA HfA)).
  unfold mul. erewrite bind_lift; cycle 1.
  { apply binop_same; auto.
    - now rewrite (mean_over_samples_shape fA HfA).
    - exact (mean_over_samples_wf fA HfA). }
  reflexivity.
Qed.

Lemma draws_outputs_length :
  Forall (fun Zn => length (data (fA (perturbed_input S sigma Zn))) = k) Zs.
Proof.
  pose proof (outputs_wf fA HfA) as HF. unfold perturbed_inputs in HF.
  rewrite map_map in HF. apply Forall_map in HF.
  eapply Forall_impl; [|exact HF]. intros Zn [HA HAw]. now rewrite HAw, HA.
Qed.

(** C2.  On a well-behaved solver and noise model, and in exact
    arithmetic, the first component of the derivative rule is
    [(1 / (num_samples * sigma)) * Sum_n Ak_z[n] * (grad_log_noise[n] .
    flatten(t))] in the shape of [S], where [Ak_z[n]] is the solver's
    first output on [S + sigma * Z_n] and [grad_log_noise[n]] is the
    negative gradient of [log_prob] at each element of the draw [Z_n]. *)
Theorem pert_jvp_argmax {E : ExactArith T} (w : W) :
  exists dA dF dM,
    pert_jvp jax_grad solver num_samples sigma noise tangent ans S ncc rng w
    = (Ok (dA, dF, dM), w) /\
    dA = argmax_jvp_spec jax_grad noise num_samples sigma S Zs (map fA Xs)
           tangent.
Proof.
  do 3 eexists. split; [apply pert_jvp_run|].
  unfold argmax_jvp_spec, weighted_sum, perturbed_inputs.
  do 2 f_equal.
  rewrite !map_map, combine_map_same, map_map. cbn [fst snd].
  pose proof draws_outputs_length as HL.
  rewrite sum_rows_columns with (k := k).
  - apply map_ext_in. intros j Hj. apply in_seq in Hj.
    rewrite map_map. f_equal. apply map_ext_in. intros Zn HZn.
    rewrite Forall_forall in HL. specialize (HL Zn HZn).
    rewrite dot_factor. symmetry.
    set (c := dot (grad_log_noise jax_grad noise Zn) (data tangent)).
    rewrite (nth_indep (map (fun a => smul a c) _) s0 (smul s0 c))
      by (rewrite length_map; lia).
    exact (map_nth (fun a => smul a c) _ s0 j).
  - apply Forall_map. eapply Forall_impl; [|exact HL].
    intros Zn HZn. now rewrite length_map.
Qed.

(** C3.  The second component of the derivative rule is the sum over the
    entries of [A_eps * t], where [A_eps] is the first output of forward
    evaluation on the same [(S, ncc, rng)]. *)
Theorem pert_jvp_max (w w' : W) :
  exists A_eps F_eps M_eps dA dF dM,
    forward_pert solver num_samples sigma noise S ncc rng w
    = (Ok (A_eps, F_eps, M_eps), w) /\
    pert_jvp jax_grad solver num_samples sigma noise tangent ans S ncc rng w'
    = (Ok (dA, dF, dM), w') /\
    A_eps = mean_over_samples (map fA Xs) /\
    dF = mk_array [] [sum (zip_with smul (data A_eps) (data tangent))].
Proof.
  do 6 eexists. split; [apply forward_pert_run|].
  split; [apply pert_jvp_run|]. split; reflexivity.
Qed.

End Contract.

(** ** The constrained wrapper is the unconstrained one on [csolver] with
    [C] applied *)

Section Constrained.
Context {T : Type} `{Scalar T}.
Variables (W key : Type).
Variable jax_grad : (array T -> array T) -> T -> T.
Variable csolver : csolver_t T W.
Variable num_samples : Z.
Variable sigma : T.
Variable noise : noise_model T W key.

Lemma cforward_pert_locals_unfold S ncc C rng :
  cforward_pert_locals csolver num_samples sigma noise S ncc C rng =
  forward_pert_locals (fun X m => csolver X m C) num_samples sigma noise
    S ncc rng.
Proof. reflexivity. Qed.

Lemma cforward_pert_unfold S ncc C rng :
  cforward_pert csolver num_samples sigma noise S ncc C rng =
  forward_pert (fun X m => csolver X m C) num_samples sigma noise S ncc rng.
Proof. reflexivity. Qed.

Lemma cpert_jvp_unfold tangent ans S ncc C rng :
  cpert_jvp jax_grad csolver num_samples sigma noise tangent ans S ncc C rng =
  pert_jvp jax_grad (fun X m => csolver X m C) num_samples sigma noise
    tangent ans S ncc rng.
Proof. reflexivity. Qed.

End Constrained.

(** ** The derivative of the connectivity output *)

Section ThirdComponent.
Context {T : Type} `{Scalar T}.
Variables (W key : Type).
Variable jax_grad : (array T -> array T) -> T -> T.
Variable num_samples : Z.
Variable sigma : T.
Variable noise : noise_model T W key.

(** Whatever the solver and the arguments, a derivative rule that returns
    returns zeros in the shape of the tangent as its third component. *)
Lemma pert_jvp_third (solver : solver_t T W) tangent ans S ncc rng
  (w w' : W) dA dF dM :
  pert_jvp jax_grad solver num_samples sigma noise tangent ans S ncc rng w
  = (Ok (dA, dF, dM), w') ->
  dM = zeros_like tangent.
Proof.
  intros Hrun. unfold pert_jvp, bind, lift, ret in Hrun.
  repeat match type of Hrun with
         | context [match ?x with _ => _ end] => destruct x; try discriminate
         end.
  now inversion Hrun.
Qed.

Lemma cpert_jvp_third (csolver : csolver_t T W) tangent ans S ncc C rng
  (w w' : W) dA dF dM :
  cpert_jvp jax_grad csolver num_samples sigma noise tangent ans S ncc C rng w
  = (Ok (dA, dF, dM), w') ->
  dM = zeros_like tangent.
Proof. rewrite cpert_jvp_unfold. apply pert_jvp_third. Qed.

End ThirdComponent.

Section Connectivity.
Context {T : Type} `{Scalar T}.
Variables (W key : Type).
Variable jax_grad : (array T -> array T) -> T -> T.
Variable solver : solver_t T W.
Variable csolver : csolver_t T W.
Variable num_samples : Z.
Variable sigma : T.
Variable noise : noise_model T W key.
Variable use_bias : bool.
Variables (S : array T) (ncc : Z) (C : array T) (rng : key).
Variable samples : array T.
Variables fA fM : array T -> array T.
Variable msh : list nat.
Variable tangent : array T.
Variable ans : triple T.

Hypothesis Hn : (0 < num_samples)%Z.
Hypothesis HS : wf S.
Hypothesis Hdraw :
  forall w, sample noise rng (batch_shape num_samples S) w = (Ok samples, w).
Hypothesis Hshape : shape samples = Z.to_nat num_samples :: shape S.
Hypothesis Hwf : wf samples.
Hypothesis Hsolver :
  forall X w, shape X = shape S -> wf X ->
              solver X ncc w = (Ok (fA X, fM X), w).
Hypothesis Hcsolver :
  forall X w, shape X = shape S -> wf X ->
              csolver X ncc C w = (Ok (fA X, fM X), w).
Hypothesis HfA :
  forall X, shape X = shape S -> wf X -> shape (fA X) = shape S /\ wf (fA X).
Hypothesis HfM :
  forall X, shape X = shape S -> wf X -> shape (fM X) = msh /\ wf (fM X).
Hypothesis Ht : shape tangent = shape S.
Hypothesis Htw : wf tangent.
Hypothesis Hsigma : s_is_zero (smul (s_of_Z num_samples) sigma) = false.

(** C4, as the program has it.  On a well-behaved solver and noise model,
    the derivative rule of the unconstrained and of the constrained
    wrapper returns, and its third component is the zero array of the
    shape of the tangent, which is the shape of [S]; the arguments [ncc],
    [C] and [rng] have no rule.  The third component has the shape of
    [M_eps] exactly when the solver's connectivity output has the shape of
    [S].  On any arguments at all, a rule that returns returns the zero
    array of the shape of its tangent as third component. *)
Theorem pert_jvp_connectivity (w : W) :
  exists wr wc rule crule A_eps F_eps M_eps dA dF cdA cdF,
    make_pert_solver jax_grad solver num_samples sigma noise = Ok wr /\
    jvps wr = [Some rule; None; None] /\
    call wr (S, ncc, rng) w = (Ok (A_eps, F_eps, M_eps), w) /\
    rule tangent ans (S, ncc, rng) w
    = (Ok (dA, dF, zeros_like tangent), w) /\
    make_pert_csolver jax_grad csolver num_samples sigma noise use_bias
    = Ok wc /\
    jvps wc = [Some crule; None; None; None] /\
    crule tangent ans (S, ncc, C, rng) w
    = (Ok (cdA, cdF, zeros_like tangent), w) /\
    shape (zeros_like tangent) = shape S /\
    Forall (eq s0) (data (zeros_like tangent)) /\
    (shape (zeros_like tangent) = shape M_eps <-> shape S = msh) /\
    (forall t a S' ncc' rng' w1 w2 dA' dF' dM',
        pert_jvp jax_grad solver num_samples sigma noise t a S' ncc' rng' w1
        = (Ok (dA', dF', dM'), w2) ->
        dM' = zeros_like t) /\
    (forall t a S' ncc' C' rng' w1 w2 dA' dF' dM',
        cpert_jvp jax_grad csolver num_samples sigma noise t a S' ncc' C'
          rng' w1
        = (Ok (dA', dF', dM'), w2) ->
        dM' = zeros_like t).
Proof.
  do 11 eexists.
  split; [reflexivity|]. split; [reflexivity|].
  split; [cbn [call]; eapply forward_pert_run; eassumption|].
  split; [eapply pert_jvp_run; eassumption|].
  split; [reflexivity|]. split; [reflexivity|].
  split.
  { rewrite cpert_jvp_unfold.
    eapply pert_jvp_run with (fA := fA) (fM := fM); eauto. }
  split; [exact Ht|].
  split; [apply Forall_forall; intros x Hx; symmetry;
          exact (repeat_spec _ _ _ Hx)|].
  split.
  { cbn [zeros_like shape].
    erewrite mean_over_samples_shape with (f := fM) by eassumption.
    rewrite Ht. tauto. }
  split; intros.
  - eapply pert_jvp_third; eassumption.
  - eapply cpert_jvp_third; eassumption.
Qed.

End Connectivity.

(** ** Computations that ignore the ambient state *)

Section Purity.
Context {T : Type} `{Scalar T}.
Variables (W key : Type).

Lemma pure_ret {A} (a : A) : pure (W := W) (ret a).
Proof. now exists (Ok a). Qed.

Lemma pure_lift {A} (r : result A) : pure (W := W) (lift r).
Proof. now exists r. Qed.

Lemma pure_bind {A B} (c : M W A) (k : A -> M W B) :
  pure c -> (forall a, pure (k a)) -> pure (bind c k).
Proof.
  intros [[a|e] Hc] Hk.
  - destruct (Hk a) as [r Hr]. exists r. intros w.
    unfold bind. now rewrite Hc, Hr.
  - exists (Raise e). intros w. unfold bind. now rewrite Hc.
Qed.

Lemma pure_mapM {A B} (f : A -> M W B) (l : list A) :
  (forall x, pure (f x)) -> pure (mapM f l).
Proof.
  intros Hf. induction l as [|x l IH]; simpl.
  - apply pure_ret.
  - apply pure_bind; [apply Hf|]. intros y.
    apply pure_bind; [exact IH|]. intros ys. apply pure_ret.
Qed.

Lemma pure_vmap2 (f : array T -> M W (array T * array T)) X :
  (forall x, pure (f x)) -> pure (vmap2 f X).
Proof.
  intros Hf. unfold vmap2.
  apply pure_bind; [apply pure_lift|]. intros xs.
  apply pure_bind; [now apply pure_mapM|]. intros outs.
  apply pure_bind; [apply pure_lift|]. intros a.
  apply pure_bind; [apply pure_lift|]. intros b. apply pure_ret.
Qed.

(** Two runs of a pure computation return the same result. *)
Lemma pure_fst {A} (c : M W A) w1 w2 : pure c -> fst (c w1) = fst (c w2).
Proof. intros [r Hr]. now rewrite !Hr. Qed.

Variable jax_grad : (array T -> array T) -> T -> T.
Variable solver : solver_t T W.
Variable csolver : csolver_t T W.
Variable num_samples : Z.
Variable sigma : T.
Variable noise : noise_model T W key.

Hypothesis Hnoise : pure_noise noise.
Hypothesis Hsolver : pure_solver solver.
Hypothesis Hcsolver : pure_csolver csolver.

Lemma pure_forward_pert_locals S ncc rng :
  pure (forward_pert_locals solver num_samples sigma noise S ncc rng).
Proof.
  unfold forward_pert_locals.
  apply pure_bind; [apply Hnoise|]. intros samples.
  apply pure_bind; [apply pure_lift|]. intros X.
  apply pure_bind; [apply pure_vmap2; intros x; apply Hsolver|].
  intros [Ak Mk]. apply pure_ret.
Qed.

Lemma pure_forward_pert S ncc rng :
  pure (forward_pert solver num_samples sigma noise S ncc rng).
Proof.
  unfold forward_pert.
  apply pure_bind; [apply pure_forward_pert_locals|].
  intros [[samples Ak] Mk].
  repeat (apply pure_bind; [apply pure_lift|]; intro).
  apply pure_ret.
Qed.

Lemma pure_cforward_pert_locals S ncc C rng :
  pure (cforward_pert_locals csolver num_samples sigma noise S ncc C rng).
Proof.
  unfold cforward_pert_locals.
  apply pure_bind; [apply Hnoise|]. intros samples.
  apply pure_bind; [apply pure_lift|]. intros X.
  apply pure_bind; [apply pure_vmap2; intros x; apply Hcsolver|].
  intros [Ak Mk]. apply pure_ret.
Qed.

Lemma pure_cforward_pert S ncc C rng :
  pure (cforward_pert csolver num_samples sigma noise S ncc C rng).
Proof.
  unfold cforward_pert.
  apply pure_bind; [apply pure_cforward_pert_locals|].
  intros [[samples Ak] Mk].
  repeat (apply pure_bind; [apply pure_lift|]; intro).
  apply pure_ret.
Qed.

(** C5.  With a noise model whose [sample] is a function of the seed and
    the shape, and a pure solver, two forward evaluations of a wrapper on
    the same arguments return the same outputs, whatever the ambient
    state of each call. *)
Theorem forward_pert_deterministic use_bias S ncc C rng (w1 w2 : W) :
  exists wr wc,
    make_pert_solver jax_grad solver num_samples sigma noise = Ok wr /\
    make_pert_csolver jax_grad csolver num_samples sigma noise use_bias
    = Ok wc /\
    fst (call wr (S, ncc, rng) w1) = fst (call wr (S, ncc, rng) w2) /\
    fst (call wc (S, ncc, C, rng) w1) = fst (call wc (S, ncc, C, rng) w2).
Proof.
  do 2 eexists. split; [reflexivity|]. split; [reflexivity|].
  cbn [call]. split; apply pure_fst.
  - apply pure_forward_pert.
  - apply pure_cforward_pert.
Qed.

Lemma bind_lift_rbind {A B} (r : result A) (k : A -> M W B)
  (k' : A -> result B) (w : W) :
  (forall a, k a w = (k' a, w)) -> bind (lift r) k w = (rbind r k', w).
Proof. intros Hk. destruct r as [a|e]; [apply Hk|reflexivity]. Qed.

(** C6.  With the same assumptions there is one outcome [locals] of the
    first lines, the sample batch and the stacked solver outputs [(samples,
    Ak_z, Mk_z)] or an exception, that forward evaluation and the
    derivative rule both compute on [(S, ncc, rng)], whatever the ambient
    state of each; forward evaluation returns what its remaining lines
    make of [locals], and the rule, whatever forward output it is handed,
    returns what its remaining lines make of the same [locals]. *)
Theorem pert_jvp_recomputes S ncc rng tangent :
  exists locals,
    (forall w, forward_pert_locals solver num_samples sigma noise S ncc rng w
               = (locals, w)) /\
    (forall w, pert_jvp_locals solver num_samples sigma noise S ncc rng w
               = (locals, w)) /\
    (forall w, forward_pert solver num_samples sigma noise S ncc rng w
               = (rbind locals (forward_pert_outputs num_samples sigma S),
                  w)) /\
    (forall ans w,
        pert_jvp jax_grad solver num_samples sigma noise tangent ans
          S ncc rng w
        = (rbind locals
             (pert_jvp_outputs jax_grad noise num_samples sigma tangent S),
           w)).
Proof.
  destruct (pure_forward_pert_locals S ncc rng) as [locals Hl].
  exists locals. split; [exact Hl|]. split; [exact Hl|]. split.
  - intros w. unfold forward_pert, bind at 1. rewrite Hl.
    destruct locals as [[[samples Ak_z] Mk_z]|e]; [|reflexivity].
    cbn [rbind forward_pert_outputs].
    repeat (apply bind_lift_rbind; intro). reflexivity.
  - intros ans w. unfold pert_jvp, bind at 1.
    change (pert_jvp_locals solver num_samples sigma noise S ncc rng w)
      with (forward_pert_locals solver num_samples sigma noise S ncc rng w).
    rewrite Hl.
    destruct locals as [[[samples Ak_z] Mk_z]|e]; [|reflexivity].
    cbn [rbind pert_jvp_outputs]. cbv zeta.
    repeat (apply bind_lift_rbind; intro). reflexivity.
Qed.

End Purity.

(** ** The constrained wrapper on a solver that ignores its constraint *)

Section Parity.
Context {T : Type} `{Scalar T}.
Variables (W key : Type).

Lemma bind_ext_l {A B} (c c' : M W A) (k : A -> M W B) w :
  (forall w', c w' = c' w') -> bind c k w = bind c' k w.
Proof. intros Hc. unfold bind. now rewrite Hc. Qed.

Lemma bind_ext_r {A B} (c : M W A) (k k' : A -> M W B) w :
  (forall a w', k a w' = k' a w') -> bind c k w = bind c k' w.
Proof. intros Hk. unfold bind. destruct (c w) as [[a|e] w']; auto. Qed.

Lemma vmap2_ext (f g : array T -> M W (array T * array T)) X w :
  (forall x w', f x w' = g x w') -> vmap2 f X w = vmap2 g X w.
Proof.
  intros Hfg. unfold vmap2. apply bind_ext_r. intros xs w'.
  apply bind_ext_l. intros w''. now apply mapM_ext.
Qed.

Variable jax_grad : (array T -> array T) -> T -> T.
Variable solver : solver_t T W.
Variable csolver : csolver_t T W.
Variable num_samples : Z.
Variable sigma : T.
Variable noise : noise_model T W key.

Hypothesis Hignore :
  forall X ncc C w, csolver X ncc C w = solver X ncc w.

Lemma cforward_pert_locals_parity S ncc C rng w :
  cforward_pert_locals csolver num_samples sigma noise S ncc C rng w =
  forward_pert_locals solver num_samples sigma noise S ncc rng w.
Proof.
  unfold cforward_pert_locals, forward_pert_locals.
  apply bind_ext_r. intros samples w1. apply bind_ext_r. intros X w2.
  apply bind_ext_l. intros w3. apply vmap2_ext. intros x w4. apply Hignore.
Qed.

Lemma cforward_pert_parity S ncc C rng w :
  cforward_pert csolver num_samples sigma noise S ncc C rng w =
  forward_pert solver num_samples sigma noise S ncc rng w.
Proof.
  unfold cforward_pert, forward_pert. apply bind_ext_l. intros w'.
  apply cforward_pert_locals_parity.
Qed.

Lemma cpert_jvp_parity tangent ans S ncc C rng w :
  cpert_jvp jax_grad csolver num_samples sigma noise tangent ans S ncc C rng w
  = pert_jvp jax_grad solver num_samples sigma noise tangent ans S ncc rng w.
Proof.
  unfold cpert_jvp, pert_jvp. apply bind_ext_l. intros w'.
  apply cforward_pert_locals_parity.
Qed.

(** C7.  When [csolver(S, ncc, C)] is [solver(S, ncc)] for every [C], the
    wrapper built by [make_pert_csolver] and the wrapper built by
    [make_pert_solver] with the same [num_samples], [sigma] and noise
    model return the same forward outputs and the same derivative-rule
    outputs, for every [(S, ncc, C, rng)] and every tangent. *)
Theorem constrained_parity use_bias S ncc C rng tangent ans (w : W) :
  exists wc wr crule rule,
    make_pert_csolver jax_grad csolver num_samples sigma noise use_bias
    = Ok wc /\
    make_pert_solver jax_grad solver num_samples sigma noise = Ok wr /\
    call wc (S, ncc, C, rng) w = call wr (S, ncc, rng) w /\
    hd None (jvps wc) = Some crule /\
    hd None (jvps wr) = Some rule /\
    crule tangent ans (S, ncc, C, rng) w = rule tangent ans (S, ncc, rng) w /\
    tl (jvps wc) = [None; None; None] /\
    tl (jvps wr) = [None; None].
Proof.
  do 4 eexists. split; [reflexivity|]. split; [reflexivity|].
  cbn [call jvps hd tl].
  split; [apply cforward_pert_parity|].
  split; [reflexivity|]. split; [reflexivity|].
  split; [apply cpert_jvp_parity|]. split; reflexivity.
Qed.

End Parity.

(** ** Building a wrapper *)

Section Construction.
Context {T : Type} `{Scalar T}.
Variables (W key : Type).
Variable jax_grad : (array T -> array T) -> T -> T.

(** C8, as the program has it.  Building a wrapper checks nothing:
    [make_pert_solver] and [make_pert_csolver] return a wrapper for every
    [sigma] and every [num_samples], the non-positive ones included. *)
Theorem make_pert_never_fails (solver : solver_t T W) (csolver : csolver_t T W)
  (num_samples : Z) (sigma : T) (noise : noise_model T W key)
  (use_bias : bool) :
  (exists wr,
      make_pert_solver jax_grad solver num_samples sigma noise = Ok wr) /\
  (exists wc,
      make_pert_csolver jax_grad csolver num_samples sigma noise use_bias
      = Ok wc).
Proof. split; eexists; reflexivity. Qed.

(** C9, the program at any value of the flag.  The body of
    [make_pert_csolver] never reads [use_bias]: the wrapper it builds is
    the same for both values, so the flag reaches neither the solver nor
    the perturbation algorithm. *)
Theorem make_pert_csolver_use_bias (csolver : csolver_t T W)
  (num_samples : Z) (sigma : T) (noise : noise_model T W key)
  (use_bias use_bias' : bool) :
  make_pert_csolver jax_grad csolver num_samples sigma noise use_bias =
  make_pert_csolver jax_grad csolver num_samples sigma noise use_bias'.
Proof. reflexivity. Qed.

End Construction.

(** ** The default noise model *)

Section NormalFacts.
Variables (W key : Type).

Lemma Normal_log_prob_elementwise {T : Type} `{Scalar T}
  (random_normal : key -> list Z -> result (array T)) (x : array T) :
  log_prob (Normal W random_normal) x =
  mk_array (shape x)
    (map (fun v => smul (sneg (s_lit (1 # 2))) (spow v 2)) (data x)).
Proof.
  cbn [log_prob Normal]. unfold scale, power, map_array. cbn [shape data].
  now rewrite map_map.
Qed.

Lemma Normal_sample_pure {T : Type} `{Scalar T}
  (random_normal : key -> list Z -> result (array T)) :
  pure_noise (Normal W random_normal).
Proof. intros seed sample_shape. apply pure_lift. Qed.

(** On the reals, [x |-> -log_prob(x)] has derivative [x] at [x]. *)
Lemma Normal_neg_log_prob_derivative
  (random_normal : key -> list Z -> result (array R)) (x : R) :
  derivable_pt_lim
    (fun y => sneg (item (log_prob (Normal W random_normal) (mk_array [] [y]))))
    x x.
Proof.
  intros eps Heps. exists (mkposreal eps Heps). intros h Hh Hlt.
  simpl in Hlt. cbn -[Rplus Rmult Ropp Rminus Rdiv Rinv Q2R].
  unfold Q2R. cbn [Qnum Qden].
  replace ((- (- (1 * / 2) * ((x + h) * ((x + h) * 1)))
            - - (- (1 * / 2) * (x * (x * 1)))) / h - x)%R
    with (h / 2)%R by (field; exact Hh).
  unfold Rdiv. rewrite Rabs_mult, (Rabs_pos_eq (/ 2)) by lra.
  pose proof (Rabs_pos h). lra.
Qed.

End NormalFacts.

(** ** Rational arithmetic is exact *)

#[export] Instance ExactArith_Q : ExactArith Q.
Proof.
  split; intros; cbn [smul sadd s0 Scalar_Q].
  - apply Qred_complete. rewrite !Qred_correct. ring.
  - apply Qred_complete. rewrite !Qred_correct. ring.
  - change (Qred (a * 0) = Qred 0)%Q. apply Qred_complete. ring.
Qed.

(** ** The statements on a concrete instance *)

Module DemoFacts.
Import Demo.

Lemma draw w :
  sample noise 0 (batch_shape 2%Z S22) w = (Ok samples, w).
Proof. reflexivity. Defined.

Lemma solver_fn (X : array Q) (w : nat) :
  shape X = shape S22 -> wf X -> solver X 2%Z w = (Ok (fA X, fM X), w).
Proof. reflexivity. Defined.

Lemma csolver_fn (X : array Q) (w : nat) :
  shape X = shape S22 -> wf X -> csolver X 2%Z C22 w = (Ok (fA X, fM X), w).
Proof. reflexivity. Defined.

Lemma fA_shape (X : array Q) :
  shape X = shape S22 -> wf X -> shape (fA X) = shape S22 /\ wf (fA X).
Proof. intros HX HXw. exact (conj HX HXw). Defined.

Lemma fM_shape (X : array Q) :
  shape X = shape S22 -> wf X -> shape (fM X) = [3] /\ wf (fM X).
Proof. intros _ _. split; reflexivity. Defined.

End DemoFacts.

Lemma forward_pert_monte_carlo_witness :
  exists wrapper A_eps F_eps M_eps,
    make_pert_solver Demo.grad Demo.solver 2 (1 # 2)%Q Demo.noise
    = Ok wrapper /\
    call wrapper (Demo.S22, 2%Z, 0) 0 = (Ok (A_eps, F_eps, M_eps), 0) /\
    A_eps = mean_over_samples
              (map Demo.fA
                 (perturbed_inputs Demo.S22 (1 # 2)%Q Demo.samples)) /\
    F_eps = mean_of
              (map (fun X => inner X (Demo.fA X))
                 (perturbed_inputs Demo.S22 (1 # 2)%Q Demo.samples)) /\
    M_eps = mean_over_samples
              (map Demo.fM
                 (perturbed_inputs Demo.S22 (1 # 2)%Q Demo.samples)) /\
    shape A_eps = shape Demo.S22 /\ shape F_eps = [] /\ shape M_eps = [3].
Proof.
  apply (forward_pert_monte_carlo Demo.grad Demo.solver (1 # 2)%Q Demo.noise
           2%Z 0 Demo.fA Demo.fM
           (num_samples := 2%Z) (S := Demo.S22) (samples := Demo.samples)).
  - reflexivity.
  - reflexivity.
  - exact DemoFacts.draw.
  - reflexivity.
  - reflexivity.
  - exact DemoFacts.solver_fn.
  - exact DemoFacts.fA_shape.
  - exact DemoFacts.fM_shape.
Defined.

Lemma pert_jvp_argmax_witness :
  exists dA dF dM,
    pert_jvp Demo.grad Demo.solver 2 (1 # 2)%Q Demo.noise Demo.t22
      (Demo.S22, Demo.S22, Demo.S22) Demo.S22 2 0 0
    = (Ok (dA, dF, dM), 0) /\
    dA = argmax_jvp_spec Demo.grad Demo.noise 2 (1 # 2)%Q Demo.S22
           (draws Demo.samples)
           (map Demo.fA (perturbed_inputs Demo.S22 (1 # 2)%Q Demo.samples))
           Demo.t22.
Proof.
  refine (@pert_jvp_argmax Q _ nat nat Demo.grad Demo.solver 2%Z (1 # 2)%Q
            Demo.noise Demo.S22 2%Z 0 Demo.samples Demo.fA Demo.fM [3]
            _ _ DemoFacts.draw _ _ DemoFacts.solver_fn DemoFacts.fA_shape
            DemoFacts.fM_shape Demo.t22 (Demo.S22, Demo.S22, Demo.S22)
            _ _ _ ExactArith_Q 0); reflexivity.
Defined.

Lemma pert_jvp_max_witness :
  exists A_eps F_eps M_eps dA dF dM,
    forward_pert Demo.solver 2 (1 # 2)%Q Demo.noise Demo.S22 2 0 0
    = (Ok (A_eps, F_eps, M_eps), 0) /\
    pert_jvp Demo.grad Demo.solver 2 (1 # 2)%Q Demo.noise Demo.t22
      (Demo.S22, Demo.S22, Demo.S22) Demo.S22 2 0 5
    = (Ok (dA, dF, dM), 5) /\
    A_eps = mean_over_samples
              (map Demo.fA
                 (perturbed_inputs Demo.S22 (1 # 2)%Q Demo.samples)) /\
    dF = mk_array [] [sum (zip_with smul (data A_eps) (data Demo.t22))].
Proof.
  apply (pert_jvp_max Demo.grad Demo.solver (1 # 2)%Q Demo.noise
           2%Z 0 Demo.fA Demo.fM
           (num_samples := 2%Z) (S := Demo.S22) (samples := Demo.samples)
           (msh := [3])).
  - reflexivity.
  - reflexivity.
  - exact DemoFacts.draw.
  - reflexivity.
  - reflexivity.
  - exact DemoFacts.solver_fn.
  - exact DemoFacts.fA_shape.
  - exact DemoFacts.fM_shape.
  - reflexivity.
  - reflexivity.
  - reflexivity.
Defined.

(** The solver of the instance returns a connectivity vector of three
    entries for a 2 x 2 input: the third component of the derivative rule
    is 2 x 2 and [M_eps] is not. *)
Lemma pert_jvp_connectivity_shape_counterexample :
  exists out dout,
    fst (forward_pert Demo.solver 2 (1 # 2)%Q Demo.noise Demo.S22 2 0 0)
    = Ok out /\
    fst (pert_jvp Demo.grad Demo.solver 2 (1 # 2)%Q Demo.noise Demo.t22 out
           Demo.S22 2 0 0)
    = Ok dout /\
    shape (snd out) = [3] /\
    shape (snd dout) = [2; 2] /\
    shape (snd dout) <> shape (snd out).
Proof.
  eexists. eexists.
  split; [vm_compute; reflexivity|].
  split; [vm_compute; reflexivity|].
  split; [reflexivity|]. split; [reflexivity|]. discriminate.
Qed.

Lemma pert_jvp_connectivity_witness :
  exists wr wc rule crule A_eps F_eps M_eps dA dF cdA cdF,
    make_pert_solver Demo.grad Demo.solver 2 (1 # 2)%Q Demo.noise = Ok wr /\
    jvps wr = [Some rule; None; None] /\
    call wr (Demo.S22, 2%Z, 0) 0 = (Ok (A_eps, F_eps, M_eps), 0) /\
    rule Demo.t22 (Demo.S22, Demo.S22, Demo.S22) (Demo.S22, 2%Z, 0) 0
    = (Ok (dA, dF, zeros_like Demo.t22), 0) /\
    make_pert_csolver Demo.grad Demo.csolver 2 (1 # 2)%Q Demo.noise true
    = Ok wc /\
    jvps wc = [Some crule; None; None; None] /\
    crule Demo.t22 (Demo.S22, Demo.S22, Demo.S22)
      (Demo.S22, 2%Z, Demo.C22, 0) 0
    = (Ok (cdA, cdF, zeros_like Demo.t22), 0) /\
    shape (zeros_like Demo.t22) = shape Demo.S22 /\
    Forall (eq s0) (data (zeros_like Demo.t22)) /\
    (shape (zeros_like Demo.t22) = shape M_eps <-> shape Demo.S22 = [3]) /\
    (forall t a S' ncc' rng' w1 w2 dA' dF' dM',
        pert_jvp Demo.grad Demo.solver 2 (1 # 2)%Q Demo.noise t a S' ncc'
          rng' w1
        = (Ok (dA', dF', dM'), w2) ->
        dM' = zeros_like t) /\
    (forall t a S' ncc' C' rng' w1 w2 dA' dF' dM',
        cpert_jvp Demo.grad Demo.csolver 2 (1 # 2)%Q Demo.noise t a S' ncc'
          C' rng' w1
        = (Ok (dA', dF', dM'), w2) ->
        dM' = zeros_like t).
Proof.
  refine (@pert_jvp_connectivity Q _ nat nat Demo.grad Demo.solver
            Demo.csolver 2%Z (1 # 2)%Q Demo.noise true Demo.S22 2%Z Demo.C22
            0 Demo.samples Demo.fA Demo.fM [3] Demo.t22
            (Demo.S22, Demo.S22, Demo.S22)
            _ _ DemoFacts.draw _ _ DemoFacts.solver_fn DemoFacts.csolver_fn
            DemoFacts.fA_shape DemoFacts.fM_shape _ _ _ 0); reflexivity.
Defined.

Lemma forward_pert_deterministic_witness :
  exists wr wc,
    make_pert_solver Demo.grad Demo.solver 2 (1 # 2)%Q Demo.noise = Ok wr /\
    make_pert_csolver Demo.grad Demo.csolver 2 (1 # 2)%Q Demo.noise true
    = Ok wc /\
    fst (call wr (Demo.S22, 2%Z, 0) 0) = fst (call wr (Demo.S22, 2%Z, 0) 7) /\
    fst (call wc (Demo.S22, 2%Z, Demo.C22, 0) 0)
    = fst (call wc (Demo.S22, 2%Z, Demo.C22, 0) 7).
Proof.
  refine (@forward_pert_deterministic Q _ nat nat Demo.grad Demo.solver
            Demo.csolver 2%Z (1 # 2)%Q Demo.noise _ _ _ true Demo.S22 2%Z
            Demo.C22 0 0 7).
  - exact (Normal_sample_pure nat Demo.random_normal).
  - intros X ncc. apply pure_ret.
  - intros X ncc C. apply pure_ret.
Defined.

Lemma pert_jvp_recomputes_witness :
  exists locals,
    (forall w, forward_pert_locals Demo.solver 2 (1 # 2)%Q Demo.noise
                 Demo.S22 2 0 w = (locals, w)) /\
    (forall w, pert_jvp_locals Demo.solver 2 (1 # 2)%Q Demo.noise
                 Demo.S22 2 0 w = (locals, w)) /\
    (forall w, forward_pert Demo.solver 2 (1 # 2)%Q Demo.noise Demo.S22 2 0 w
               = (rbind locals
                    (forward_pert_outputs 2 (1 # 2)%Q Demo.S22), w)) /\
    (forall ans w,
        pert_jvp Demo.grad Demo.solver 2 (1 # 2)%Q Demo.noise Demo.t22 ans
          Demo.S22 2 0 w
        = (rbind locals
             (pert_jvp_outputs Demo.grad Demo.noise 2 (1 # 2)%Q Demo.t22
                Demo.S22),
           w)).
Proof.
  refine (@pert_jvp_recomputes Q _ nat nat Demo.grad Demo.solver 2%Z
            (1 # 2)%Q Demo.noise _ _ Demo.S22 2%Z 0 Demo.t22).
  - exact (Normal_sample_pure nat Demo.random_normal).
  - intros X ncc. apply pure_ret.
Defined.

Lemma constrained_parity_witness :
  exists wc wr crule rule,
    make_pert_csolver Demo.grad Demo.csolver 2 (1 # 2)%Q Demo.noise true
    = Ok wc /\
    make_pert_solver Demo.grad Demo.solver 2 (1 # 2)%Q Demo.noise = Ok wr /\
    call wc (Demo.S22, 2%Z, Demo.C22, 0) 0 = call wr (Demo.S22, 2%Z, 0) 0 /\
    hd None (jvps wc) = Some crule /\
    hd None (jvps wr) = Some rule /\
    crule Demo.t22 (Demo.S22, Demo.S22, Demo.S22)
      (Demo.S22, 2%Z, Demo.C22, 0) 0
    = rule Demo.t22 (Demo.S22, Demo.S22, Demo.S22) (Demo.S22, 2%Z, 0) 0 /\
    tl (jvps wc) = [None; None; None] /\
    tl (jvps wr) = [None; None].
Proof.
  refine (@constrained_parity Q _ nat nat Demo.grad Demo.solver Demo.csolver
            2%Z (1 # 2)%Q Demo.noise _ true Demo.S22 2%Z Demo.C22 0 Demo.t22
            (Demo.S22, Demo.S22, Demo.S22) 0).
  reflexivity.
Defined.

(** Wrappers are built, and evaluate, with [sigma = 0]; they are built
    with no sample, and with negative [num_samples] and [sigma]. *)
Lemma make_pert_nonpositive_counterexample :
  (exists wr out,
      make_pert_solver Demo.grad Demo.solver 2 0%Q Demo.noise = Ok wr /\
      fst (call wr (Demo.S22, 2%Z, 0) 0) = Ok out) /\
  (exists wr,
      make_pert_solver Demo.grad Demo.solver 0 0%Q Demo.noise = Ok wr) /\
  (exists wr,
      make_pert_solver Demo.grad Demo.solver (-3) (- (1))%Q Demo.noise
      = Ok wr) /\
  (exists wc,
      make_pert_csolver Demo.grad Demo.csolver 0 0%Q Demo.noise true
      = Ok wc).
Proof.
  split; [|split; [|split]].
  - do 2 eexists. split; [reflexivity|]. vm_compute. reflexivity.
  - eexists. reflexivity.
  - eexists. reflexivity.
  - eexists. reflexivity.
Qed.

(** Purity is what makes two runs agree: with a solver that counts its
    calls, forward evaluation depends on the state it starts in. *)
Example counting_solver_runs_differ :
  fst (forward_pert Demo.counting_solver 2 (1 # 2)%Q Demo.noise Demo.S22 2 0 0)
  <>
  fst (forward_pert Demo.counting_solver 2 (1 # 2)%Q Demo.noise Demo.S22 2 0 1).
Proof. vm_compute. discriminate. Qed.

(** With [sigma = 0] the wrapper is built and forward evaluation returns;
    it is the division [1.0 / (num_samples * sigma)] of the derivative
    rule that raises. *)
Example zero_sigma_rule_raises :
  fst (pert_jvp Demo.grad Demo.solver 2 0%Q Demo.noise Demo.t22
         (Demo.S22, Demo.S22, Demo.S22) Demo.S22 2 0 0)
  = Raise EvalError.
Proof. vm_compute. reflexivity. Qed.

(** * Part III: failures, edges and linearity *)

(** ** A noise model that fails *)

Section Failures.
Context {T : Type} `{Scalar T}.
Variables (W key : Type).
Variable jax_grad : (array T -> array T) -> T -> T.
Variable num_samples : Z.
Variable sigma : T.
Variable noise : noise_model T W key.

(** X1.  When [noise.sample] raises, forward evaluation and the
    derivative rule of both wrappers raise the same exception and leave
    the state as [sample] left it: the solver is not called. *)
Theorem noise_failure_propagates (solver : solver_t T W)
  (csolver : csolver_t T W) S ncc C rng tangent ans e (w w' : W) :
  sample noise rng (batch_shape num_samples S) w = (Raise e, w') ->
  forward_pert solver num_samples sigma noise S ncc rng w = (Raise e, w') /\
  pert_jvp jax_grad solver num_samples sigma noise tangent ans S ncc rng w
  = (Raise e, w') /\
  cforward_pert csolver num_samples sigma noise S ncc C rng w
  = (Raise e, w') /\
  cpert_jvp jax_grad csolver num_samples sigma noise tangent ans S ncc C rng w
  = (Raise e, w').
Proof.
  intros Hs.
  assert (Hl : forall sv : solver_t T W,
             forward_pert_locals sv num_samples sigma noise S ncc rng w
             = (Raise e, w')).
  { intros sv. unfold forward_pert_locals. now apply bind_raise. }
  rewrite cforward_pert_unfold, cpert_jvp_unfold.
  repeat split; apply bind_raise; apply Hl.
Qed.

End Failures.

(** ** A number of samples or a divisor that cannot be used *)

Section Edges.
Context {T : Type} `{Scalar T}.
Variables (W key : Type).
Variable jax_grad : (array T -> array T) -> T -> T.
Variable num_samples : Z.
Variable sigma : T.
Variable noise : noise_model T W key.

(** A computation raises in every state. *)
Local Abbreviation raises c := (forall w : W, exists e w', c w = (Raise e, w')).

Lemma raises_bind {A B} (c : M W A) (k : A -> M W B) :
  (forall a, raises (k a)) -> raises (bind c k).
Proof.
  intros Hk w. unfold bind. destruct (c w) as [[a|e] w']; eauto.
Qed.

Lemma raises_lift {A B} (e : exn) (k : A -> M W B) :
  raises (bind (lift (Raise e)) k).
Proof. intros w. now exists e, w. Qed.

Lemma reshape_rows_nonpositive (a : array T) :
  (num_samples <= 0)%Z -> reshape_rows num_samples a = Raise EvalError.
Proof.
  intros Hn. unfold reshape_rows.
  destruct (Z.leb_spec num_samples 0); [reflexivity|lia].
Qed.

Lemma forward_pert_nonpositive (solver : solver_t T W) S ncc rng :
  (num_samples <= 0)%Z ->
  raises (forward_pert solver num_samples sigma noise S ncc rng).
Proof.
  intros Hn. unfold forward_pert.
  apply raises_bind. intros [[samples Ak] Mk].
  do 3 (apply raises_bind; intro).
  rewrite reshape_rows_nonpositive by exact Hn. apply raises_lift.
Qed.

Lemma pert_jvp_nonpositive (solver : solver_t T W) tangent ans S ncc rng :
  (num_samples <= 0)%Z ->
  raises (pert_jvp jax_grad solver num_samples sigma noise tangent ans
            S ncc rng).
Proof.
  intros Hn. unfold pert_jvp.
  apply raises_bind. intros [[samples Ak] Mk].
  apply raises_bind; intro.
  rewrite reshape_rows_nonpositive by exact Hn. apply raises_lift.
Qed.

(** X3.  With [num_samples <= 0] a wrapper is built, but no evaluation of
    it returns: forward evaluation and the derivative rule of both
    wrappers raise on every solver, noise model, argument and state (at
    the latest where they reshape to [(num_samples, -1)]). *)
Theorem nonpositive_num_samples_raises (solver : solver_t T W)
  (csolver : csolver_t T W) tangent ans S ncc C rng (w : W) :
  (num_samples <= 0)%Z ->
  (exists wr, make_pert_solver jax_grad solver num_samples sigma noise
              = Ok wr) /\
  (exists e w',
      forward_pert solver num_samples sigma noise S ncc rng w
      = (Raise e, w')) /\
  (exists e w',
      pert_jvp jax_grad solver num_samples sigma noise tangent ans S ncc rng w
      = (Raise e, w')) /\
  (exists e w',
      cforward_pert csolver num_samples sigma noise S ncc C rng w
      = (Raise e, w')) /\
  (exists e w',
      cpert_jvp jax_grad csolver num_samples sigma noise tangent ans
        S ncc C rng w
      = (Raise e, w')).
Proof.
  intros Hn. split; [eexists; reflexivity|].
  rewrite cforward_pert_unfold, cpert_jvp_unfold.
  repeat split;
    first [now apply forward_pert_nonpositive
          |now apply pert_jvp_nonpositive].
Qed.

(** X4.  When [num_samples * sigma] is zero, as for [sigma = 0], the
    derivative rule of both wrappers raises on every solver, noise model,
    argument and state: it never returns a derivative. *)
Theorem zero_divisor_rule_raises (solver : solver_t T W)
  (csolver : csolver_t T W) tangent ans S ncc C rng (w : W) :
  s_is_zero (smul (s_of_Z num_samples) sigma) = true ->
  (exists e w',
      pert_jvp jax_grad solver num_samples sigma noise tangent ans S ncc rng w
      = (Raise e, w')) /\
  (exists e w',
      cpert_jvp jax_grad csolver num_samples sigma noise tangent ans
        S ncc C rng w
      = (Raise e, w')).
Proof.
  intros Hz.
  assert (Hr : forall sv : solver_t T W,
             raises (pert_jvp jax_grad sv num_samples sigma noise tangent ans
                       S ncc rng)).
  { intros sv. unfold pert_jvp.
    apply raises_bind. intros [[samples Ak] Mk].
    unfold py_inv. rewrite Hz. apply raises_lift. }
  rewrite cpert_jvp_unfold. split; apply Hr.
Qed.

End Edges.

(** ** The shapes of what the wrapper returns *)

Section RuleShapes.
Context {T : Type} `{Scalar T}.
Variables (W key : Type).
Variable jax_grad : (array T -> array T) -> T -> T.
Variable solver : solver_t T W.
Variable num_samples : Z.
Variable sigma : T.
Variable noise : noise_model T W key.
Variables (S : array T) (ncc : Z) (rng : key).
Variable samples : array T.
Variables fA fM : array T -> array T.
Variable msh : list nat.
Variable tangent : array T.
Variable ans : triple T.

Hypothesis Hn : (0 < num_samples)%Z.
Hypothesis HS : wf S.
Hypothesis Hdraw :
  forall w, sample noise rng (batch_shape num_samples S) w = (Ok samples, w).
Hypothesis Hshape : shape samples = Z.to_nat num_samples :: shape S.
Hypothesis Hwf : wf samples.
Hypothesis Hsolver :
  forall X w, shape X = shape S -> wf X ->
              solver X ncc w = (Ok (fA X, fM X), w).
Hypothesis HfA :
  forall X, shape X = shape S -> wf X -> shape (fA X) = shape S /\ wf (fA X).
Hypothesis HfM :
  forall X, shape X = shape S -> wf X -> shape (fM X) = msh /\ wf (fM X).
Hypothesis Ht : shape tangent = shape S.
Hypothesis Htw : wf tangent.
Hypothesis Hsigma : s_is_zero (smul (s_of_Z num_samples) sigma) = false.

(** X5.  On a well-behaved solver and noise model, the first two outputs
    of the derivative rule have the shapes of [A_eps] and [F_eps], and
    every array that forward evaluation and the rule return has as many
    elements as its shape says. *)
Theorem rule_outputs_match_forward (w : W) :
  exists A_eps F_eps M_eps dA dF dM,
    forward_pert solver num_samples sigma noise S ncc rng w
    = (Ok (A_eps, F_eps, M_eps), w) /\
    pert_jvp jax_grad solver num_samples sigma noise tangent ans S ncc rng w
    = (Ok (dA, dF, dM), w) /\
    shape dA = shape A_eps /\ shape dF = shape F_eps /\
    wf A_eps /\ wf F_eps /\ wf M_eps /\ wf dA /\ wf dF /\ wf dM.
Proof.
  do 6 eexists.
  split; [eapply forward_pert_run; eassumption|].
  split; [eapply pert_jvp_run; eassumption|].
  split.
  { cbn [shape]. symmetry.
    eapply mean_over_samples_shape with (f := fA); eassumption. }
  split; [reflexivity|].
  split; [eapply mean_over_samples_wf with (f := fA); eassumption|].
  split; [reflexivity|].
  split; [eapply mean_over_samples_wf with (f := fM); eassumption|].
  split; [|split; [reflexivity|]].
  - unfold wf. cbn [shape data]. now rewrite !length_map, length_seq.
  - unfold wf, zeros_like. cbn [shape data]. apply repeat_length.
Qed.

End RuleShapes.

(** ** The derivative rule in exact arithmetic *)

Section ExactRule.
Context {T : Type} `{Scalar T} {E : ExactArith T}.
Variables (W key : Type).
Variable jax_grad : (array T -> array T) -> T -> T.
Variable solver : solver_t T W.
Variable num_samples : Z.
Variable sigma : T.
Variable noise : noise_model T W key.
Variables (S : array T) (ncc : Z) (rng : key).
Variable samples : array T.
Variables fA fM : array T -> array T.
Variable msh : list nat.

Hypothesis Hn : (0 < num_samples)%Z.
Hypothesis HS : wf S.
Hypothesis Hdraw :
  forall w, sample noise rng (batch_shape num_samples S) w = (Ok samples, w).
Hypothesis Hshape : shape samples = Z.to_nat num_samples :: shape S.
Hypothesis Hwf : wf samples.
Hypothesis Hsolver :
  forall X w, shape X = shape S -> wf X ->
              solver X ncc w = (Ok (fA X, fM X), w).
Hypothesis HfA :
  forall X, shape X = shape S -> wf X -> shape (fA X) = shape S /\ wf (fA X).
Hypothesis HfM :
  forall X, shape X = shape S -> wf X -> shape (fM X) = msh /\ wf (fM X).

Local Abbreviation Xs := (perturbed_inputs S sigma samples).
Local Abbreviation Zs := (draws samples).
Local Abbreviation k := (numel (shape S)).

(** The contraction of the program, regrouped sample by sample. *)
Lemma einsum_regroup (t : array T) :
  map (fun j =>
         sum (map (fun Zn =>
                     sum (zip_with smul
                            (map (smul (nth j (data (fA (perturbed_input
                                                        S sigma Zn))) s0))
                                 (grad_log_noise jax_grad noise Zn))
                            (data t)))
                  Zs))
      (seq 0 k) =
  weighted_sum k (map fA Xs)
    (map (fun Zn => dot (grad_log_noise jax_grad noise Zn) (data t)) Zs).
Proof.
  unfold weighted_sum, perturbed_inputs.
  rewrite !map_map, combine_map_same, map_map. cbn [fst snd].
  assert (HL : Forall (fun Zn =>
                         length (data (fA (perturbed_input S sigma Zn))) = k)
                      Zs)
    by (eapply draws_outputs_length; eassumption).
  rewrite sum_rows_columns with (k := k).
  - apply map_ext_in. intros j Hj. apply in_seq in Hj.
    rewrite map_map. f_equal. apply map_ext_in. intros Zn HZn.
    rewrite Forall_forall in HL. specialize (HL Zn HZn).
    rewrite dot_factor. symmetry.
    set (c := dot (grad_log_noise jax_grad noise Zn) (data t)).
    rewrite (nth_indep (map (fun a => smul a c) _) s0 (smul s0 c))
      by (rewrite length_map; lia).
    exact (map_nth (fun a => smul a c) _ s0 j).
  - apply Forall_map. eapply Forall_impl; [|exact HL].
    intros Zn HZn. now rewrite length_map.
Qed.

(** The rule on a tangent of the shape of [S], in exact arithmetic. *)
Lemma pert_jvp_exact (t : array T) (ans : triple T) (w : W) :
  shape t = shape S -> wf t ->
  s_is_zero (smul (s_of_Z num_samples) sigma) = false ->
  pert_jvp jax_grad solver num_samples sigma noise t ans S ncc rng w =
  (Ok (argmax_jvp_spec jax_grad noise num_samples sigma S Zs (map fA Xs) t,
       contract (mean_over_samples (map fA Xs)) t,
       zeros_like t), w).
Proof.
  intros Ht Htw Hsigma.
  erewrite pert_jvp_run by eassumption.
  unfold argmax_jvp_spec. now rewrite einsum_regroup.
Qed.

End ExactRule.

(** ** The constrained wrapper on a well-behaved solver and noise model *)

Section ConstrainedContract.
Context {T : Type} `{Scalar T}.
Variables (W key : Type).
Variable jax_grad : (array T -> array T) -> T -> T.
Variable csolver : csolver_t T W.
Variable num_samples : Z.
Variable sigma : T.
Variable noise : noise_model T W key.
Variable use_bias : bool.
Variables (S : array T) (ncc : Z) (C : array T) (rng : key).
Variable samples : array T.
Variables fA fM : array T -> array T.
Variable msh : list nat.

Hypothesis Hn : (0 < num_samples)%Z.
Hypothesis HS : wf S.
Hypothesis Hdraw :
  forall w, sample noise rng (batch_shape num_samples S) w = (Ok samples, w).
Hypothesis Hshape : shape samples = Z.to_nat num_samples :: shape S.
Hypothesis Hwf : wf samples.
Hypothesis Hcsolver :
  forall X w, shape X = shape S -> wf X ->
              csolver X ncc C w = (Ok (fA X, fM X), w).
Hypothesis HfA :
  forall X, shape X = shape S -> wf X -> shape (fA X) = shape S /\ wf (fA X).
Hypothesis HfM :
  forall X, shape X = shape S -> wf X -> shape (fM X) = msh /\ wf (fM X).

Local Abbreviation Xs := (perturbed_inputs S sigma samples).

(** X6.  On a well-behaved constrained solver and noise model, forward
    evaluation of the wrapper built by [make_pert_csolver] returns the
    means over the samples of the outputs of [csolver] on the perturbed
    inputs, every call with the same [ncc] and the same [C], and the
    mean of the inner products; the shapes are those of [S], of a 0-d
    array and of the connectivity output. *)
Theorem cforward_pert_monte_carlo (w : W) :
  exists wrapper A_eps F_eps M_eps,
    make_pert_csolver jax_grad csolver num_samples sigma noise use_bias
    = Ok wrapper /\
    call wrapper (S, ncc, C, rng) w = (Ok (A_eps, F_eps, M_eps), w) /\
    A_eps = mean_over_samples (map fA Xs) /\
    F_eps = mean_of (map (fun X => inner X (fA X)) Xs) /\
    M_eps = mean_over_samples (map fM Xs) /\
    shape A_eps = shape S /\ shape F_eps = [] /\ shape M_eps = msh.
Proof.
  eexists; do 3 eexists.
  split; [reflexivity|].
  split.
  { cbn [call]. rewrite cforward_pert_unfold.
    eapply forward_pert_run with (fA := fA) (fM := fM); eauto. }
  repeat split.
  - eapply mean_over_samples_shape with (f := fA); eassumption.
  - eapply mean_over_samples_shape with (f := fM); eassumption.
Qed.

(** X7.  On the same assumptions, for a tangent of the shape of [S], a
    nonzero [num_samples * sigma] and exact arithmetic, the rule of the
    constrained wrapper returns [(1 / (num_samples * sigma)) * Sum_n
    AkM_z[n] * (grad_log_noise[n] . flatten(t))] in the shape of [S],
    then [sum(A_eps * t)], then zeros in the shape of [t]. *)
Theorem cpert_jvp_components {E : ExactArith T} (tangent : array T)
  (ans : triple T) (w : W) :
  shape tangent = shape S -> wf tangent ->
  s_is_zero (smul (s_of_Z num_samples) sigma) = false ->
  cpert_jvp jax_grad csolver num_samples sigma noise tangent ans S ncc C rng w
  = (Ok (argmax_jvp_spec jax_grad noise num_samples sigma S (draws samples)
           (map fA Xs) tangent,
         contract (mean_over_samples (map fA Xs)) tangent,
         zeros_like tangent), w).
Proof.
  intros Ht Htw Hsigma. rewrite cpert_jvp_unfold.
  eapply pert_jvp_exact with (fA := fA) (fM := fM); eauto.
Qed.

End ConstrainedContract.

(** ** The derivative rule is linear in the tangent *)

Section LinearFacts.
Context {T : Type} `{Scalar T} {E : ExactArith T} {CA : CommArith T}.
Implicit Types (u v l : list T) (c : T).

Lemma smul_rot (a c t : T) : smul a (smul c t) = smul c (smul a t).
Proof. now rewrite <- !smul_assoc, (smul_comm a c). Qed.

Lemma sadd_swap (a b x y : T) :
  sadd (sadd a b) (sadd x y) = sadd (sadd a x) (sadd b y).
Proof.
  rewrite !sadd_assoc. f_equal.
  now rewrite <- !sadd_assoc, (sadd_comm b x).
Qed.

Lemma sum_scale c l : sum (map (smul c) l) = smul c (sum l).
Proof.
  unfold sum. rewrite <- (smul_0_r c) at 1. generalize (@s0 T _).
  induction l as [|x l IH]; intros acc; simpl; auto.
  now rewrite <- smul_add_distr_l, IH.
Qed.

Lemma zip_smul_scale c u v :
  zip_with smul u (map (smul c) v) = map (smul c) (zip_with smul u v).
Proof.
  revert v; induction u as [|x u IH]; intros [|y v]; simpl; auto.
  now rewrite smul_rot, IH.
Qed.

Lemma dot_scale c u v : dot u (map (smul c) v) = smul c (dot u v).
Proof. unfold dot. now rewrite zip_smul_scale, sum_scale. Qed.

Lemma zip_sadd_scale c u v :
  zip_with sadd (map (smul c) u) (map (smul c) v)
  = map (smul c) (zip_with sadd u v).
Proof.
  revert v; induction u as [|x u IH]; intros [|y v]; simpl; auto.
  now rewrite <- smul_add_distr_l, IH.
Qed.

Lemma sum_rows_scale c k (rows : list (list T)) :
  sum_rows k (map (map (smul c)) rows) = map (smul c) (sum_rows k rows).
Proof.
  unfold sum_rows.
  replace (repeat s0 k) with (map (smul c) (repeat (@s0 T _) k)) at 1
    by (rewrite map_repeat; now rewrite smul_0_r).
  generalize (repeat (@s0 T _) k).
  induction rows as [|r rows IH]; intros acc; simpl; auto.
  now rewrite zip_sadd_scale, IH.
Qed.

Lemma sum_add u v :
  length u = length v ->
  sum (zip_with sadd u v) = sadd (sum u) (sum v).
Proof.
  unfold sum. rewrite <- sadd_0_0 at 1.
  generalize (@s0 T _) at 2 4. generalize (@s0 T _).
  revert v; induction u as [|x u IH]; intros [|y v] a b; simpl;
    try discriminate; auto.
  intros [= Hl]. now rewrite sadd_swap, IH.
Qed.

Lemma zip_smul_add u v1 v2 :
  zip_with smul u (zip_with sadd v1 v2)
  = zip_with sadd (zip_with smul u v1) (zip_with smul u v2).
Proof.
  revert v1 v2; induction u as [|x u IH]; intros [|y1 v1] [|y2 v2]; simpl;
    auto.
  now rewrite smul_add_distr_l, IH.
Qed.

Lemma dot_add u v1 v2 :
  length v1 = length v2 ->
  dot u (zip_with sadd v1 v2) = sadd (dot u v1) (dot u v2).
Proof.
  intros Hl. unfold dot. rewrite zip_smul_add. apply sum_add.
  rewrite !zip_with_length. lia.
Qed.

Lemma zip_sadd_swap (a1 a2 r1 r2 : list T) :
  zip_with sadd (zip_with sadd a1 a2) (zip_with sadd r1 r2)
  = zip_with sadd (zip_with sadd a1 r1) (zip_with sadd a2 r2).
Proof.
  revert a2 r1 r2; induction a1 as [|x a1 IH];
    intros [|y a2] [|p r1] [|q r2]; simpl; auto.
  now rewrite sadd_swap, IH.
Qed.

Lemma sum_rows_add {A} k (r1 r2 : A -> list T) (zs : list A) :
  sum_rows k (map (fun z => zip_with sadd (r1 z) (r2 z)) zs)
  = zip_with sadd (sum_rows k (map r1 zs)) (sum_rows k (map r2 zs)).
Proof.
  unfold sum_rows.
  assert (H0 : repeat (@s0 T _) k
               = zip_with sadd (repeat s0 k) (repeat s0 k)).
  { induction k as [|k IH]; simpl; auto. now rewrite sadd_0_0, <- IH. }
  rewrite H0 at 1.
  generalize (repeat (@s0 T _) k) at 2 4. generalize (repeat (@s0 T _) k).
  induction zs as [|z zs IH]; intros a b; simpl; auto.
  now rewrite zip_sadd_swap, IH.
Qed.

Lemma map_smul_add (w1 w2 : T) l :
  map (fun a => smul a (sadd w1 w2)) l
  = zip_with sadd (map (fun a => smul a w1) l) (map (fun a => smul a w2) l).
Proof.
  induction l as [|x l IH]; simpl; auto.
  now rewrite smul_add_distr_l, IH.
Qed.

Lemma map_scale_add c u v :
  map (smul c) (zip_with sadd u v)
  = zip_with sadd (map (smul c) u) (map (smul c) v).
Proof. symmetry. apply zip_sadd_scale. Qed.

End LinearFacts.

Section Linearity.
Context {T : Type} `{Scalar T} {E : ExactArith T} {CA : CommArith T}.
Variables (W key : Type).
Variable jax_grad : (array T -> array T) -> T -> T.
Variable solver : solver_t T W.
Variable num_samples : Z.
Variable sigma : T.
Variable noise : noise_model T W key.
Variables (S : array T) (ncc : Z) (rng : key).
Variable samples : array T.
Variables fA fM : array T -> array T.
Variable msh : list nat.
Variable ans : triple T.

Hypothesis Hn : (0 < num_samples)%Z.
Hypothesis HS : wf S.
Hypothesis Hdraw :
  forall w, sample noise rng (batch_shape num_samples S) w = (Ok samples, w).
Hypothesis Hshape : shape samples = Z.to_nat num_samples :: shape S.
Hypothesis Hwf : wf samples.
Hypothesis Hsolver :
  forall X w, shape X = shape S -> wf X ->
              solver X ncc w = (Ok (fA X, fM X), w).
Hypothesis HfA :
  forall X, shape X = shape S -> wf X -> shape (fA X) = shape S /\ wf (fA X).
Hypothesis HfM :
  forall X, shape X = shape S -> wf X -> shape (fM X) = msh /\ wf (fM X).
Hypothesis Hsigma : s_is_zero (smul (s_of_Z num_samples) sigma) = false.

Local Abbreviation Xs := (perturbed_inputs S sigma samples).
Local Abbreviation Zs := (draws samples).
Local Abbreviation k := (numel (shape S)).
Local Abbreviation kappa := (sdiv s1 (smul (s_of_Z num_samples) sigma)).
Local Abbreviation dA_of t :=
  (argmax_jvp_spec jax_grad noise num_samples sigma S Zs (map fA Xs) t).
Local Abbreviation dF_of t :=
  (contract (mean_over_samples (map fA Xs)) t).

Lemma argmax_jvp_spec_rows (t : array T) :
  dA_of t =
  mk_array (shape S)
    (map (smul kappa)
       (sum_rows k
          (map (fun Zn =>
                  map (fun a =>
                         smul a (dot (grad_log_noise jax_grad noise Zn)
                                     (data t)))
                      (data (fA (perturbed_input S sigma Zn))))
               Zs))).
Proof.
  unfold argmax_jvp_spec, weighted_sum, perturbed_inputs.
  now rewrite !map_map, combine_map_same, map_map.
Qed.

Lemma argmax_jvp_spec_scale (c : T) (t : array T) :
  dA_of (scale c t) = scale c (dA_of t).
Proof.
  rewrite !argmax_jvp_spec_rows. unfold scale, map_array. cbn [shape data].
  f_equal.
  set (r := fun Zn =>
              map (fun a =>
                     smul a (dot (grad_log_noise jax_grad noise Zn) (data t)))
                  (data (fA (perturbed_input S sigma Zn)))).
  transitivity (map (smul kappa) (sum_rows k (map (map (smul c)) (map r Zs)))).
  - do 2 f_equal. rewrite map_map. apply map_ext. intros Zn. unfold r.
    rewrite dot_scale, map_map. apply map_ext. intros a. apply smul_rot.
  - rewrite sum_rows_scale, !map_map.
    apply map_ext. intros x. apply smul_rot.
Qed.

Lemma contract_scale (c : T) (A t : array T) :
  contract A (scale c t) = scale c (contract A t).
Proof.
  unfold contract, scale, map_array. cbn [shape data map].
  now rewrite zip_smul_scale, sum_scale.
Qed.

Lemma zeros_like_scale (c : T) (t : array T) :
  zeros_like (scale c t) = scale c (zeros_like t).
Proof.
  unfold zeros_like, scale, map_array. cbn [shape data].
  now rewrite map_repeat, smul_0_r.
Qed.

(** X8.  In exact arithmetic the derivative rule is homogeneous in the
    tangent: on the tangent [c * t] it returns [c] times each of the three
    arrays it returns on [t]. *)
Theorem pert_jvp_homogeneous (c : T) (tangent : array T) (w : W) :
  shape tangent = shape S -> wf tangent ->
  exists dA dF dM,
    pert_jvp jax_grad solver num_samples sigma noise tangent ans S ncc rng w
    = (Ok (dA, dF, dM), w) /\
    pert_jvp jax_grad solver num_samples sigma noise (scale c tangent) ans
      S ncc rng w
    = (Ok (scale c dA, scale c dF, scale c dM), w).
Proof.
  intros Ht Htw. do 3 eexists. split.
  - eapply pert_jvp_exact with (fA := fA) (fM := fM); eauto.
  - erewrite pert_jvp_exact with (fA := fA) (fM := fM); eauto.
    + now rewrite argmax_jvp_spec_scale, contract_scale, zeros_like_scale.
    + unfold wf, scale, map_array. cbn [shape data]. now rewrite length_map.
Qed.

Lemma argmax_jvp_spec_add (t1 t2 : array T) :
  length (data t1) = length (data t2) ->
  data (dA_of (mk_array (shape t1) (zip_with sadd (data t1) (data t2)))) =
  zip_with sadd (data (dA_of t1)) (data (dA_of t2)).
Proof.
  intros Hl. rewrite !argmax_jvp_spec_rows. cbn [shape data].
  rewrite <- map_scale_add, <- sum_rows_add. do 2 f_equal.
  apply map_ext. intros Zn. now rewrite dot_add, map_smul_add.
Qed.

Lemma dA_of_wf (t : array T) : shape (dA_of t) = shape S /\ wf (dA_of t).
Proof.
  split; [reflexivity|].
  unfold wf, argmax_jvp_spec. cbn [shape data].
  rewrite <- einsum_regroup with (num_samples := num_samples)
    by eassumption.
  now rewrite !length_map, length_seq.
Qed.

(** X9.  In exact arithmetic the derivative rule is additive in the
    tangent: on [t1 + t2] each of the three arrays it returns is the sum
    of the arrays it returns on [t1] and on [t2]. *)
Theorem pert_jvp_additive (t1 t2 : array T) (w : W) :
  shape t1 = shape S -> wf t1 -> shape t2 = shape S -> wf t2 ->
  exists t12 dA1 dF1 dM1 dA2 dF2 dM2 dA12 dF12 dM12,
    add t1 t2 = Ok t12 /\
    pert_jvp jax_grad solver num_samples sigma noise t1 ans S ncc rng w
    = (Ok (dA1, dF1, dM1), w) /\
    pert_jvp jax_grad solver num_samples sigma noise t2 ans S ncc rng w
    = (Ok (dA2, dF2, dM2), w) /\
    pert_jvp jax_grad solver num_samples sigma noise t12 ans S ncc rng w
    = (Ok (dA12, dF12, dM12), w) /\
    add dA1 dA2 = Ok dA12 /\ add dF1 dF2 = Ok dF12 /\ add dM1 dM2 = Ok dM12.
Proof.
  intros Ht1 Hw1 Ht2 Hw2.
  assert (Hl : length (data t1) = length (data t2))
    by (rewrite Hw1, Hw2, Ht1, Ht2; reflexivity).
  assert (Hw12 : wf (mk_array (shape t1) (zip_with sadd (data t1) (data t2)))).
  { unfold wf. cbn [shape data]. rewrite zip_with_length, <- Hl, Hw1. lia. }
  exists (mk_array (shape t1) (zip_with sadd (data t1) (data t2))).
  do 9 eexists.
  split; [apply binop_same; congruence|].
  split; [eapply pert_jvp_exact with (fA := fA) (fM := fM); eauto|].
  split; [eapply pert_jvp_exact with (fA := fA) (fM := fM); eauto|].
  split; [eapply pert_jvp_exact with (fA := fA) (fM := fM); eauto|].
  split; [|split].
  - unfold add. rewrite binop_same; try apply dA_of_wf.
    f_equal. rewrite <- argmax_jvp_spec_add by exact Hl. reflexivity.
  - unfold add. rewrite binop_same; try reflexivity.
    unfold contract. cbn [shape data zip_with].
    do 3 f_equal. symmetry.
    exact (dot_add (data (mean_over_samples (map fA Xs))) _ _ Hl).
  - unfold add. rewrite binop_same.
    + unfold zeros_like. cbn [shape data]. rewrite Ht1, Ht2. f_equal. f_equal.
      generalize k. intros m. induction m as [|m IH]; simpl; auto.
      now rewrite sadd_0_0, IH.
    + cbn [zeros_like shape]. congruence.
    + unfold wf, zeros_like. cbn [shape data]. apply repeat_length.
    + unfold wf, zeros_like. cbn [shape data]. apply repeat_length.
Qed.

End Linearity.

(** ** The default noise model in the derivative rule *)

Section NormalRule.
Context {T : Type} `{Scalar T} {E : ExactArith T}.
Variables (W key : Type).
Variable jax_grad : (array T -> array T) -> T -> T.
Variable jax_random_normal : key -> list Z -> result (array T).
Variable solver : solver_t T W.
Variable num_samples : Z.
Variable sigma : T.
Variables (S : array T) (ncc : Z) (rng : key).
Variable samples : array T.
Variables fA fM : array T -> array T.
Variable msh : list nat.
Variable tangent : array T.
Variable ans : triple T.

Local Abbreviation noise := (Normal W jax_random_normal).

Hypothesis Hn : (0 < num_samples)%Z.
Hypothesis HS : wf S.
Hypothesis Hdraw :
  jax_random_normal rng (batch_shape num_samples S) = Ok samples.
Hypothesis Hshape : shape samples = Z.to_nat num_samples :: shape S.
Hypothesis Hwf : wf samples.
Hypothesis Hsolver :
  forall X w, shape X = shape S -> wf X ->
              solver X ncc w = (Ok (fA X, fM X), w).
Hypothesis HfA :
  forall X, shape X = shape S -> wf X -> shape (fA X) = shape S /\ wf (fA X).
Hypothesis HfM :
  forall X, shape X = shape S -> wf X -> shape (fM X) = msh /\ wf (fM X).
Hypothesis Ht : shape tangent = shape S.
Hypothesis Htw : wf tangent.
Hypothesis Hsigma : s_is_zero (smul (s_of_Z num_samples) sigma) = false.
(** [jax.grad] differentiates [-0.5 * x ** 2] to [-x], whose negative is
    [x], at every drawn value. *)
Hypothesis Hgrad :
  Forall (fun z => sneg (jax_grad (log_prob noise) z) = z) (data samples).

Lemma chunks_incl {A} (m n : nat) (l c : list A) :
  In c (chunks m n l) -> incl c l.
Proof.
  revert l; induction n as [|n IH]; simpl; intros l; [tauto|].
  intros [<-|Hc] x Hx.
  - rewrite <- (firstn_skipn m l). apply in_or_app. now left.
  - rewrite <- (firstn_skipn m l). apply in_or_app. right.
    exact (IH _ Hc x Hx).
Qed.

Lemma normal_score (Zn : array T) :
  In Zn (draws samples) -> grad_log_noise jax_grad noise Zn = data Zn.
Proof.
  unfold draws, slices. rewrite Hshape. intros HZ.
  apply in_map_iff in HZ. destruct HZ as (c & <- & Hc).
  unfold grad_log_noise. cbn [data].
  rewrite <- (map_id c) at 2. apply map_ext_in. intros z Hz.
  rewrite Forall_forall in Hgrad. apply Hgrad.
  exact (chunks_incl _ _ _ _ Hc z Hz).
Qed.

(** X10.  With the default [Normal] noise and a [jax.grad] that returns
    [-x] for [-0.5 * x ** 2], the first output of the derivative rule is,
    in exact arithmetic, [(1 / (num_samples * sigma)) * Sum_n Ak_z[n] *
    (Z_n . flatten(t))]: the score of a draw is the draw itself. *)
Theorem pert_jvp_normal (w : W) :
  exists dF dM,
    pert_jvp jax_grad solver num_samples sigma noise tangent ans S ncc rng w
    = (Ok (mk_array (shape S)
             (map (smul (sdiv s1 (smul (s_of_Z num_samples) sigma)))
                (weighted_sum (numel (shape S))
                   (map fA (perturbed_inputs S sigma samples))
                   (map (fun Zn => dot (data Zn) (data tangent))
                        (draws samples)))),
           dF, dM), w).
Proof.
  do 2 eexists.
  erewrite pert_jvp_exact with (fA := fA) (fM := fM) (samples := samples);
    eauto.
  - unfold argmax_jvp_spec.
    rewrite (map_ext_in
               (fun Zn => dot (grad_log_noise jax_grad noise Zn)
                              (data tangent))
               (fun Zn => dot (data Zn) (data tangent)))
      by (intros Zn HZn; now rewrite normal_score).
    reflexivity.
  - intros w0. cbn [sample Normal]. unfold lift. now rewrite Hdraw.
Qed.

End NormalRule.

(** ** A solver that ignores the perturbation, on the reals *)

Section FixedSolver.
Variables (W key : Type).
Variable solver : solver_t R W.
Variable num_samples : Z.
Variable sigma : R.
Variable noise : noise_model R W key.
Variables (S : array R) (ncc : Z) (rng : key).
Variable samples : array R.
Variables A M0 : array R.

Hypothesis Hn : (0 < num_samples)%Z.
Hypothesis HS : wf S.
Hypothesis Hdraw :
  forall w, sample noise rng (batch_shape num_samples S) w = (Ok samples, w).
Hypothesis Hshape : shape samples = Z.to_nat num_samples :: shape S.
Hypothesis Hwf : wf samples.
Hypothesis Hsolver :
  forall X w, shape X = shape S -> wf X -> solver X ncc w = (Ok (A, M0), w).
Hypothesis HA : shape A = shape S.
Hypothesis HAw : wf A.
Hypothesis HMw : wf M0.

Lemma fold_Rplus_repeat (a acc : R) (n : nat) :
  fold_left Rplus (repeat a n) acc = (acc + INR n * a)%R.
Proof.
  revert acc; induction n as [|n IH]; intros acc.
  - simpl. lra.
  - cbn [repeat fold_left]. rewrite IH, S_INR. lra.
Qed.

Lemma mean_over_samples_repeat (B : array R) (n : nat) :
  0 < n -> wf B -> mean_over_samples (repeat B n) = B.
Proof.
  intros Hpos HB. destruct n as [|n]; [lia|].
  change (repeat B (Datatypes.S n)) with (B :: repeat B n).
  unfold mean_over_samples.
  change (B :: repeat B n) with (repeat B (Datatypes.S n)).
  rewrite repeat_length, map_repeat.
  rewrite sum_rows_columns
    by (apply Forall_forall; intros r Hr;
        now rewrite (repeat_spec _ _ _ Hr)).
  rewrite map_map. destruct B as [sh d]. cbn [shape data] in *. f_equal.
  unfold wf in HB. cbn [shape data] in HB. rewrite <- HB.
  transitivity (map (fun j => nth j d 0%R) (seq 0 (length d)));
    [|apply map_seq_nth].
  apply map_ext. intros j.
  rewrite map_repeat. unfold sum. cbn [sadd s0 sdiv s_of_Z Scalar_R].
  rewrite fold_Rplus_repeat, <- INR_IZR_INZ.
  assert (INR (Datatypes.S n) <> 0%R) by (apply not_0_INR; lia).
  field. assumption.
Qed.

(** X11.  On the reals, a solver that returns the same [(A, M)] whatever
    its input comes out of forward evaluation unchanged: [A_eps = A] and
    [M_eps = M]. *)
Theorem forward_pert_fixed_solver (w : W) :
  exists F_eps,
    forward_pert solver num_samples sigma noise S ncc rng w
    = (Ok (A, F_eps, M0), w).
Proof.
  eexists.
  erewrite forward_pert_run with (fA := fun _ => A) (fM := fun _ => M0)
                                 (msh := shape M0) (samples := samples);
    eauto.
  assert (Hl : length (perturbed_inputs S sigma samples)
               = Z.to_nat num_samples)
    by (eapply perturbed_inputs_length; eassumption).
  assert (Hc : forall B : array R,
             map (fun _ => B) (perturbed_inputs S sigma samples)
             = repeat B (Z.to_nat num_samples)).
  { intros B. rewrite <- Hl. apply map_const. }
  rewrite !Hc, !mean_over_samples_repeat by (assumption || lia).
  reflexivity.
Qed.

End FixedSolver.

(** ** The further statements on concrete instances *)

#[export] Instance CommArith_Q : CommArith Q.
Proof.
  split; intros; cbn [smul sadd s0 Scalar_Q].
  - apply Qred_complete. ring.
  - apply Qred_complete. rewrite !Qred_correct. ring.
  - apply Qred_complete. ring.
  - reflexivity.
Qed.

Lemma noise_failure_propagates_witness :
  forward_pert Demo.solver 2 (1 # 2)%Q Cases.broken_noise Demo.S22 2 0 4
  = (Raise (Foreign 3), 4) /\
  pert_jvp Demo.grad Demo.solver 2 (1 # 2)%Q Cases.broken_noise Demo.t22
    (Demo.S22, Demo.S22, Demo.S22) Demo.S22 2 0 4
  = (Raise (Foreign 3), 4) /\
  cforward_pert Demo.csolver 2 (1 # 2)%Q Cases.broken_noise Demo.S22 2
    Demo.C22 0 4
  = (Raise (Foreign 3), 4) /\
  cpert_jvp Demo.grad Demo.csolver 2 (1 # 2)%Q Cases.broken_noise Demo.t22
    (Demo.S22, Demo.S22, Demo.S22) Demo.S22 2 Demo.C22 0 4
  = (Raise (Foreign 3), 4).
Proof.
  apply (@noise_failure_propagates Q _ nat nat Demo.grad 2%Z (1 # 2)%Q
           Cases.broken_noise Demo.solver Demo.csolver Demo.S22 2%Z Demo.C22
           0 Demo.t22 (Demo.S22, Demo.S22, Demo.S22) (Foreign 3) 4 4).
  reflexivity.
Defined.

Lemma nonpositive_num_samples_raises_witness :
  (exists wr, make_pert_solver Demo.grad Demo.solver 0 (1 # 2)%Q Demo.noise
              = Ok wr) /\
  (exists e w',
      forward_pert Demo.solver 0 (1 # 2)%Q Demo.noise Demo.S22 2 0 4
      = (Raise e, w')) /\
  (exists e w',
      pert_jvp Demo.grad Demo.solver 0 (1 # 2)%Q Demo.noise Demo.t22
        (Demo.S22, Demo.S22, Demo.S22) Demo.S22 2 0 4
      = (Raise e, w')) /\
  (exists e w',
      cforward_pert Demo.csolver 0 (1 # 2)%Q Demo.noise Demo.S22 2
        Demo.C22 0 4
      = (Raise e, w')) /\
  (exists e w',
      cpert_jvp Demo.grad Demo.csolver 0 (1 # 2)%Q Demo.noise Demo.t22
        (Demo.S22, Demo.S22, Demo.S22) Demo.S22 2 Demo.C22 0 4
      = (Raise e, w')).
Proof.
  apply (@nonpositive_num_samples_raises Q _ nat nat Demo.grad 0%Z (1 # 2)%Q
           Demo.noise Demo.solver Demo.csolver Demo.t22
           (Demo.S22, Demo.S22, Demo.S22) Demo.S22 2%Z Demo.C22 0 4).
  exact (Z.le_refl 0).
Defined.

Lemma zero_divisor_rule_raises_witness :
  (exists e w',
      pert_jvp Demo.grad Demo.solver 2 0%Q Demo.noise Demo.t22
        (Demo.S22, Demo.S22, Demo.S22) Demo.S22 2 0 4
      = (Raise e, w')) /\
  (exists e w',
      cpert_jvp Demo.grad Demo.csolver 2 0%Q Demo.noise Demo.t22
        (Demo.S22, Demo.S22, Demo.S22) Demo.S22 2 Demo.C22 0 4
      = (Raise e, w')).
Proof.
  apply (@zero_divisor_rule_raises Q _ nat nat Demo.grad 2%Z 0%Q
           Demo.noise Demo.solver Demo.csolver Demo.t22
           (Demo.S22, Demo.S22, Demo.S22) Demo.S22 2%Z Demo.C22 0 4).
  reflexivity.
Defined.

Lemma rule_outputs_match_forward_witness :
  exists A_eps F_eps M_eps dA dF dM,
    forward_pert Demo.solver 2 (1 # 2)%Q Demo.noise Demo.S22 2 0 4
    = (Ok (A_eps, F_eps, M_eps), 4) /\
    pert_jvp Demo.grad Demo.solver 2 (1 # 2)%Q Demo.noise Demo.t22
      (Demo.S22, Demo.S22, Demo.S22) Demo.S22 2 0 4
    = (Ok (dA, dF, dM), 4) /\
    shape dA = shape A_eps /\ shape dF = shape F_eps /\
    wf A_eps /\ wf F_eps /\ wf M_eps /\ wf dA /\ wf dF /\ wf dM.
Proof.
  refine (@rule_outputs_match_forward Q _ nat nat Demo.grad Demo.solver 2%Z
            (1 # 2)%Q Demo.noise Demo.S22 2%Z 0 Demo.samples Demo.fA Demo.fM
            [3] Demo.t22 (Demo.S22, Demo.S22, Demo.S22)
            _ _ DemoFacts.draw _ _ DemoFacts.solver_fn DemoFacts.fA_shape
            DemoFacts.fM_shape _ _ _ 4); reflexivity.
Defined.

Lemma cforward_pert_monte_carlo_witness :
  exists wrapper A_eps F_eps M_eps,
    make_pert_csolver Demo.grad Demo.csolver 2 (1 # 2)%Q Demo.noise false
    = Ok wrapper /\
    call wrapper (Demo.S22, 2%Z, Demo.C22, 0) 4
    = (Ok (A_eps, F_eps, M_eps), 4) /\
    A_eps = mean_over_samples
              (map Demo.fA
                 (perturbed_inputs Demo.S22 (1 # 2)%Q Demo.samples)) /\
    F_eps = mean_of
              (map (fun X => inner X (Demo.fA X))
                 (perturbed_inputs Demo.S22 (1 # 2)%Q Demo.samples)) /\
    M_eps = mean_over_samples
              (map Demo.fM
                 (perturbed_inputs Demo.S22 (1 # 2)%Q Demo.samples)) /\
    shape A_eps = shape Demo.S22 /\ shape F_eps = [] /\ shape M_eps = [3].
Proof.
  refine (@cforward_pert_monte_carlo Q _ nat nat Demo.grad Demo.csolver 2%Z
            (1 # 2)%Q Demo.noise false Demo.S22 2%Z Demo.C22 0 Demo.samples
            Demo.fA Demo.fM [3]
            _ _ DemoFacts.draw _ _ DemoFacts.csolver_fn DemoFacts.fA_shape
            DemoFacts.fM_shape 4); reflexivity.
Defined.

Lemma cpert_jvp_components_witness :
  cpert_jvp Demo.grad Demo.csolver 2 (1 # 2)%Q Demo.noise Demo.t22
    (Demo.S22, Demo.S22, Demo.S22) Demo.S22 2 Demo.C22 0 4
  = (Ok (argmax_jvp_spec Demo.grad Demo.noise 2 (1 # 2)%Q Demo.S22
           (draws Demo.samples)
           (map Demo.fA (perturbed_inputs Demo.S22 (1 # 2)%Q Demo.samples))
           Demo.t22,
         contract
           (mean_over_samples
              (map Demo.fA
                 (perturbed_inputs Demo.S22 (1 # 2)%Q Demo.samples)))
           Demo.t22,
         zeros_like Demo.t22), 4).
Proof.
  refine (@cpert_jvp_components Q _ nat nat Demo.grad Demo.csolver 2%Z
            (1 # 2)%Q Demo.noise Demo.S22 2%Z Demo.C22 0 Demo.samples
            Demo.fA Demo.fM [3]
            _ _ DemoFacts.draw _ _ DemoFacts.csolver_fn DemoFacts.fA_shape
            DemoFacts.fM_shape ExactArith_Q Demo.t22
            (Demo.S22, Demo.S22, Demo.S22) 4 _ _ _); reflexivity.
Defined.

Lemma pert_jvp_homogeneous_witness :
  exists dA dF dM,
    pert_jvp Demo.grad Demo.solver 2 (1 # 2)%Q Demo.noise Demo.t22
      (Demo.S22, Demo.S22, Demo.S22) Demo.S22 2 0 4
    = (Ok (dA, dF, dM), 4) /\
    pert_jvp Demo.grad Demo.solver 2 (1 # 2)%Q Demo.noise
      (scale (3 # 1)%Q Demo.t22) (Demo.S22, Demo.S22, Demo.S22) Demo.S22 2 0 4
    = (Ok (scale (3 # 1)%Q dA, scale (3 # 1)%Q dF, scale (3 # 1)%Q dM), 4).
Proof.
  refine (@pert_jvp_homogeneous Q _ ExactArith_Q CommArith_Q nat nat
            Demo.grad Demo.solver 2%Z (1 # 2)%Q Demo.noise Demo.S22 2%Z 0
            Demo.samples Demo.fA Demo.fM [3] (Demo.S22, Demo.S22, Demo.S22)
            _ _ DemoFacts.draw _ _ DemoFacts.solver_fn DemoFacts.fA_shape
            DemoFacts.fM_shape _ (3 # 1)%Q Demo.t22 4 _ _); reflexivity.
Defined.

Lemma pert_jvp_additive_witness :
  exists t12 dA1 dF1 dM1 dA2 dF2 dM2 dA12 dF12 dM12,
    add Demo.t22 Demo.S22 = Ok t12 /\
    pert_jvp Demo.grad Demo.solver 2 (1 # 2)%Q Demo.noise Demo.t22
      (Demo.S22, Demo.S22, Demo.S22) Demo.S22 2 0 4
    = (Ok (dA1, dF1, dM1), 4) /\
    pert_jvp Demo.grad Demo.solver 2 (1 # 2)%Q Demo.noise Demo.S22
      (Demo.S22, Demo.S22, Demo.S22) Demo.S22 2 0 4
    = (Ok (dA2, dF2, dM2), 4) /\
    pert_jvp Demo.grad Demo.solver 2 (1 # 2)%Q Demo.noise t12
      (Demo.S22, Demo.S22, Demo.S22) Demo.S22 2 0 4
    = (Ok (dA12, dF12, dM12), 4) /\
    add dA1 dA2 = Ok dA12 /\ add dF1 dF2 = Ok dF12 /\ add dM1 dM2 = Ok dM12.
Proof.
  refine (@pert_jvp_additive Q _ ExactArith_Q CommArith_Q nat nat
            Demo.grad Demo.solver 2%Z (1 # 2)%Q Demo.noise Demo.S22 2%Z 0
            Demo.samples Demo.fA Demo.fM [3] (Demo.S22, Demo.S22, Demo.S22)
            _ _ DemoFacts.draw _ _ DemoFacts.solver_fn DemoFacts.fA_shape
            DemoFacts.fM_shape _ Demo.t22 Demo.S22 4 _ _ _ _); reflexivity.
Defined.

Lemma pert_jvp_normal_witness :
  exists dF dM,
    pert_jvp Demo.grad Demo.solver 2 (1 # 2)%Q
      (Normal nat Demo.random_normal) Demo.t22
      (Demo.S22, Demo.S22, Demo.S22) Demo.S22 2 0 4
    = (Ok (mk_array (shape Demo.S22)
             (map (smul (sdiv s1 (smul (s_of_Z 2) (1 # 2)%Q)))
                (weighted_sum (numel (shape Demo.S22))
                   (map Demo.fA
                      (perturbed_inputs Demo.S22 (1 # 2)%Q Demo.samples))
                   (map (fun Zn => dot (data Zn) (data Demo.t22))
                        (draws Demo.samples)))),
           dF, dM), 4).
Proof.
  refine (@pert_jvp_normal Q _ ExactArith_Q nat nat Demo.grad
            Demo.random_normal Demo.solver 2%Z (1 # 2)%Q Demo.S22 2%Z 0
            Demo.samples Demo.fA Demo.fM [3] Demo.t22
            (Demo.S22, Demo.S22, Demo.S22)
            _ _ _ _ _ DemoFacts.solver_fn DemoFacts.fA_shape
            DemoFacts.fM_shape _ _ _ _ 4);
    try reflexivity.
  repeat constructor.
Defined.

Lemma forward_pert_fixed_solver_witness :
  exists F_eps,
    forward_pert Cases.fixed_solver 2 (1 / 2)%R Cases.zero_noise Cases.SR 2 0 4
    = (Ok (Cases.AR, F_eps, Cases.MR), 4).
Proof.
  refine (@forward_pert_fixed_solver nat nat Cases.fixed_solver 2%Z
            (1 / 2)%R Cases.zero_noise Cases.SR 2%Z 0 Cases.zerosR Cases.AR
            Cases.MR _ _ _ _ _ _ _ _ _ 4); reflexivity.
Defined.

(** ** What the wrappers use of the noise model, and their purity *)

Section Frame.
Context {T : Type} `{Scalar T}.
Variables (W key : Type).
Variable jax_grad : (array T -> array T) -> T -> T.
Variable num_samples : Z.
Variable sigma : T.

Lemma bind_at {A B} (c c' : M W A) (k : A -> M W B) (w : W) :
  c w = c' w -> bind c k w = bind c' k w.
Proof. intros Hc. unfold bind. now rewrite Hc. Qed.

(** X12.  With a pure noise model and pure solvers, the derivative rule
    of both wrappers, like forward evaluation, returns one result
    whatever the ambient state, and leaves that state as it found it. *)
Theorem rule_pure (noise : noise_model T W key) (solver : solver_t T W)
  (csolver : csolver_t T W) tangent ans S ncc C rng :
  pure_noise noise -> pure_solver solver -> pure_csolver csolver ->
  pure (pert_jvp jax_grad solver num_samples sigma noise tangent ans
          S ncc rng) /\
  pure (cpert_jvp jax_grad csolver num_samples sigma noise tangent ans
          S ncc C rng) /\
  pure (forward_pert solver num_samples sigma noise S ncc rng) /\
  pure (cforward_pert csolver num_samples sigma noise S ncc C rng).
Proof.
  intros Hnoise Hsolver Hcsolver.
  assert (Hr : forall sv : solver_t T W, pure_solver sv ->
             pure (pert_jvp jax_grad sv num_samples sigma noise tangent ans
                     S ncc rng)).
  { intros sv Hsv. unfold pert_jvp.
    apply pure_bind; [now apply pure_forward_pert_locals|].
    intros [[samples Ak] Mk]. cbv zeta.
    repeat (apply pure_bind; [apply pure_lift|]; intro).
    apply pure_ret. }
  split; [now apply Hr|].
  split; [rewrite cpert_jvp_unfold; apply Hr; intros X m; apply Hcsolver|].
  split; [now apply pure_forward_pert|now apply pure_cforward_pert].
Qed.

(** X14.  Forward evaluation does not use [log_prob]: two noise models
    with the same [sample] give the same forward evaluation, of both
    wrappers. *)
Theorem forward_ignores_log_prob (noise noise' : noise_model T W key)
  (solver : solver_t T W) (csolver : csolver_t T W) S ncc C rng (w : W) :
  (forall seed sample_shape w1,
      sample noise seed sample_shape w1 = sample noise' seed sample_shape w1)
  ->
  forward_pert solver num_samples sigma noise S ncc rng w =
  forward_pert solver num_samples sigma noise' S ncc rng w /\
  cforward_pert csolver num_samples sigma noise S ncc C rng w =
  cforward_pert csolver num_samples sigma noise' S ncc C rng w.
Proof.
  intros Hsame.
  assert (Hf : forall sv : solver_t T W,
             forward_pert sv num_samples sigma noise S ncc rng w =
             forward_pert sv num_samples sigma noise' S ncc rng w).
  { intros sv. unfold forward_pert, forward_pert_locals.
    do 2 apply bind_at. apply Hsame. }
  rewrite !cforward_pert_unfold. split; apply Hf.
Qed.

End Frame.

Lemma rule_pure_witness :
  pure (pert_jvp Demo.grad Demo.solver 2 (1 # 2)%Q Demo.noise Demo.t22
          (Demo.S22, Demo.S22, Demo.S22) Demo.S22 2 0) /\
  pure (cpert_jvp Demo.grad Demo.csolver 2 (1 # 2)%Q Demo.noise Demo.t22
          (Demo.S22, Demo.S22, Demo.S22) Demo.S22 2 Demo.C22 0) /\
  pure (forward_pert Demo.solver 2 (1 # 2)%Q Demo.noise Demo.S22 2 0) /\
  pure (cforward_pert Demo.csolver 2 (1 # 2)%Q Demo.noise Demo.S22 2
          Demo.C22 0).
Proof.
  apply (@rule_pure Q _ nat nat Demo.grad 2%Z (1 # 2)%Q Demo.noise
           Demo.solver Demo.csolver Demo.t22 (Demo.S22, Demo.S22, Demo.S22)
           Demo.S22 2%Z Demo.C22 0).
  - exact (Normal_sample_pure nat Demo.random_normal).
  - intros X ncc. apply pure_ret.
  - intros X ncc C. apply pure_ret.
Defined.

Lemma forward_ignores_log_prob_witness :
  forward_pert Demo.solver 2 (1 # 2)%Q Demo.noise Demo.S22 2 0 4 =
  forward_pert Demo.solver 2 (1 # 2)%Q Cases.flat_noise Demo.S22 2 0 4 /\
  cforward_pert Demo.csolver 2 (1 # 2)%Q Demo.noise Demo.S22 2 Demo.C22 0 4 =
  cforward_pert Demo.csolver 2 (1 # 2)%Q Cases.flat_noise Demo.S22 2
    Demo.C22 0 4.
Proof.
  apply (@forward_ignores_log_prob Q _ nat nat 2%Z (1 # 2)%Q Demo.noise
           Cases.flat_noise Demo.solver Demo.csolver Demo.S22 2%Z Demo.C22
           0 4).
  reflexivity.
Defined.
